(** * Katas: snake-path word search, permutations, stock quotes,
      url shortener, bank account parser

    A shallow embedding of functions of the katas and the proofs of
    their specification.  The first and largest part is the grid word
    search [findStringInSnakingPuzzle]; the other functions follow, each
    with its own conventions.

    JavaScript values are modelled as follows.
    - A string is the list of its UTF-16 code units.  The development is
      generic in the type [char] of code units; only decidable equality
      ([===] on one-unit strings) is used.
    - [puzzle.map(el => el.split(''))] turns every row string into the
      array of its one-unit strings, so [puzzleArr] is the puzzle itself,
      read as [list (list char)].
    - Row and column numbers are integers ([Z]): the helpers decrement
      them below zero before probing the array.
    - [arr[i]] evaluates to [undefined] outside the array; it is [None]
      here.  Reading a property of [undefined] throws a [TypeError].
    - [blockedCells] is one array shared by all recursive calls and
      mutated by [push] and [pop]; it is threaded through [snakeFind].
    - [findStringInSnakingPuzzle] is written first without a bound on
      the call stack; [findStringInSnakingPuzzle_within] is the same
      program on a stack with room for a given number of calls of
      [snakeFind].
    - A number is a double: [number] and its operations round as the
      program does.
    - [apply] takes an array of any length as the arguments of
      [Math.max] and [String.fromCodePoint]. *)

From Stdlib Require Import ZArith Lia Ascii String Factorial Sorted.
From Stdlib Require DecimalString Floats.
From stdpp Require Import base list strings.

Local Open Scope Z_scope.

(** ** Results of evaluation *)

Inductive result (A : Type) : Type :=
| Ok (a : A)
| TypeError.
Arguments Ok {A} a.
Arguments TypeError {A}.

(** Sequencing: an exception in [m] skips the continuation.  The
    [x ← m; k] notation is the one of stdpp's [MBind]. *)
Global Instance result_bind : MBind result := λ A B k m,
  match m with
  | Ok a => k a
  | TypeError => TypeError
  end.

(** [fns.map(fn => fn(...))]: the calls are made left to right and the
    first exception aborts the map. *)
Fixpoint mapR {A B} (f : A → result B) (l : list A) : result (list B) :=
  match l with
  | [] => Ok []
  | x :: l' => y ← f x; ys ← mapR f l'; Ok (y :: ys)
  end.

(** [for ( i = 0; i < n; i++ ) { if ( body( i ) ) return true; }
    return false;] where [l] lists the values that the counter takes. *)
Fixpoint for_return {A} (body : A → result bool) (l : list A) : result bool :=
  match l with
  | [] => Ok false
  | i :: l' =>
      hit ← body i;
      if hit : bool then Ok true else for_return body l'
  end.

(** ** Arrays *)

(** [arr[i]] for an integer [i]. *)
Definition js_index {A} (arr : list A) (i : Z) : option A :=
  if decide (0 ≤ i) then arr !! Z.to_nat i else None.

(** [arr.pop()], for its effect on [arr]. *)
Definition js_pop {A} (arr : list A) : list A := removelast arr.

(** [arr.push(x)], for its effect on [arr]. *)
Definition js_push {A} (arr : list A) (x : A) : list A := arr ++ [x].

Definition cell : Type := Z * Z.

Section Puzzle.
Context {char : Type} `{EqDecision char}.

(** The object built by [getLetterObj]; [letter] is [undefined] when
    the column lies outside the row. *)
Record letterObj : Type := LetterObj {
  letter : option char;
  row : Z;
  coll : Z
}.

(** The pair [[el.row, el.coll]]. *)
Definition position (el : letterObj) : cell := (row el, coll el).

(** [x === s] for an array element [x] (a one-unit string or
    [undefined]) and a string [s] of at most one unit ([None] is the
    empty string, the value of [charAt(0)] on an empty string). *)
Definition strict_eq (x s : option char) : bool :=
  match x, s with
  | Some a, Some b => bool_decide (a = b)
  | _, _ => false
  end.

Variable puzzleArr : list (list char).

(** [puzzleArr[row][coll]] *)
Definition puzzle_at (row coll : Z) : result (option char) :=
  match js_index puzzleArr row with
  | None => TypeError
  | Some r => Ok (js_index r coll)
  end.

Definition getLetterObj (row coll : Z) : result letterObj :=
  l ← puzzle_at row coll;
  Ok (LetterObj l row coll).

(** The four helpers return [null] ([None]) or a letter object.  A
    row array is always truthy, an element is truthy when it is
    defined. *)
Definition getTopLetter (row coll : Z) : result (option letterObj) :=
  let row := row - 1 in
  match js_index puzzleArr row with
  | None => Ok None
  | Some _ => o ← getLetterObj row coll; Ok (Some o)
  end.

Definition getRightLetter (row coll : Z) : result (option letterObj) :=
  let coll := coll + 1 in
  x ← puzzle_at row coll;
  match x with
  | None => Ok None
  | Some _ => o ← getLetterObj row coll; Ok (Some o)
  end.

Definition getBottomLetter (row coll : Z) : result (option letterObj) :=
  let row := row + 1 in
  match js_index puzzleArr row with
  | None => Ok None
  | Some _ => o ← getLetterObj row coll; Ok (Some o)
  end.

Definition getLeftLetter (row coll : Z) : result (option letterObj) :=
  let coll := coll - 1 in
  x ← puzzle_at row coll;
  match x with
  | None => Ok None
  | Some _ => o ← getLetterObj row coll; Ok (Some o)
  end.

Definition getLettersAround : list (Z → Z → result (option letterObj)) :=
  [getTopLetter; getRightLetter; getBottomLetter; getLeftLetter].

(** [el !== null && el.letter === findLetter] *)
Definition has_letter (findLetter : option char) (el : option letterObj)
    : option letterObj :=
  match el with
  | Some o => if strict_eq (letter o) findLetter then Some o else None
  | None => None
  end.

(** [blockedCells.every(b => b[0] !== el.row || b[1] !== el.coll)] *)
Definition not_blocked (blockedCells : list cell) (el : letterObj) : Prop :=
  Forall (λ blockedCell : cell,
            blockedCell.1 ≠ row el ∨ blockedCell.2 ≠ coll el) blockedCells.

Global Instance not_blocked_dec blockedCells el :
  Decision (not_blocked blockedCells el).
Proof. unfold not_blocked. apply _. Defined.

(** The two [filter]s applied to the mapped helpers. *)
Definition unblocked_matches (findLetter : option char)
    (blockedCells : list cell) (around : list (option letterObj))
    : list letterObj :=
  filter (not_blocked blockedCells) (omap (has_letter findLetter) around).

Definition lettersAround (row coll : Z) (findLetter : option char)
    (blockedCells : list cell) : result (list letterObj) :=
  around ← mapR (λ fn, fn row coll) getLettersAround;
  Ok (unblocked_matches findLetter blockedCells around).

(** The [for] loop of [snakeFind] over [lettersAround]; [call] is the
    recursive call [snakeFind( r, c, searchStr.slice( 1 ), blockedCells )].
    A successful call returns at once, leaving its marks in
    [blockedCells]; a failed one is followed by [pop]. *)
Definition snakeFind_loop
    (call : Z → Z → list cell → result (bool * list cell))
    : list letterObj → list cell → result (bool * list cell) :=
  fix loop (ls : list letterObj) (blockedCells : list cell) :=
    match ls with
    | [] => Ok (false, blockedCells)
    | el :: ls' =>
        let r := (position el).1 in
        let c := (position el).2 in
        let blockedCells := js_push blockedCells (r, c) in
        '(found, blockedCells) ← call r c blockedCells;
        if found : bool
        then Ok (true, blockedCells)
        else loop ls' (js_pop blockedCells)
    end.

(** [snakeFind] returns its boolean together with the final contents
    of the shared [blockedCells] array. *)
Fixpoint snakeFind (searchStr : list char) (row coll : Z)
    (blockedCells : list cell) : result (bool * list cell) :=
  match searchStr with
  | [] => Ok (true, blockedCells)
  | findLetter :: rest =>
      ls ← lettersAround row coll (Some findLetter) blockedCells;
      snakeFind_loop (snakeFind rest) ls blockedCells
  end.

(** Body of the inner scan loop. *)
Definition scan_cell (searchStr : list char) (row coll : Z) : result bool :=
  let firstChar := head searchStr in
  x ← puzzle_at row coll;
  if strict_eq x firstChar
  then '(found, _) ← snakeFind (tail searchStr) row coll [(row, coll)];
       Ok found
  else Ok false.

(** Body of the outer scan loop: the loop over the columns of a row. *)
Definition scan_row (searchStr : list char) (row : Z) : result bool :=
  match js_index puzzleArr row with
  | None => TypeError
  | Some r => for_return (scan_cell searchStr row) (seqZ 0 (Z.of_nat (length r)))
  end.

Definition scan (searchStr : list char) : result bool :=
  for_return (scan_row searchStr) (seqZ 0 (Z.of_nat (length puzzleArr))).
End Puzzle.

Arguments letterObj : clear implicits.

Definition findStringInSnakingPuzzle {char : Type} `{EqDecision char}
    (puzzle : list (list char)) (searchStr : list char) : result bool :=
  let puzzleArr := puzzle in
  scan puzzleArr searchStr.

(** ** The calls as an evaluation relation

    The same program, read as a big-step relation between a call and an
    outcome: a rule per way through the code.  Nothing in the rules says
    that a call has one outcome only; that is proved below. *)

(** The loop [for ( i = 0; i < n; i++ ) { if ( body( i ) ) return true; }
    return false;] over the values [l] of the counter. *)
Inductive for_runs {A} (body : A → result bool → Prop)
    : list A → result bool → Prop :=
| for_end : for_runs body [] (Ok false)
| for_return_true i l :
    body i (Ok true) → for_runs body (i :: l) (Ok true)
| for_next i l out :
    body i (Ok false) → for_runs body l out → for_runs body (i :: l) out
| for_throw i l :
    body i TypeError → for_runs body (i :: l) TypeError.

Section Runs.
Context {char : Type} `{EqDecision char}.
Variable puzzleArr : list (list char).

Inductive snakeFind_runs
    : list char → Z → Z → list cell → result (bool * list cell) → Prop :=
| run_empty row coll blockedCells :
    snakeFind_runs [] row coll blockedCells (Ok (true, blockedCells))
| run_around_throw findLetter rest row coll blockedCells :
    lettersAround puzzleArr row coll (Some findLetter) blockedCells = TypeError →
    snakeFind_runs (findLetter :: rest) row coll blockedCells TypeError
| run_loop findLetter rest row coll blockedCells ls out :
    lettersAround puzzleArr row coll (Some findLetter) blockedCells = Ok ls →
    loop_runs rest ls blockedCells out →
    snakeFind_runs (findLetter :: rest) row coll blockedCells out
with loop_runs
    : list char → list (letterObj char) → list cell →
      result (bool * list cell) → Prop :=
| loop_end rest blockedCells :
    loop_runs rest [] blockedCells (Ok (false, blockedCells))
| loop_return_true rest el ls blockedCells blockedCells' :
    snakeFind_runs rest (position el).1 (position el).2
      (js_push blockedCells (position el)) (Ok (true, blockedCells')) →
    loop_runs rest (el :: ls) blockedCells (Ok (true, blockedCells'))
| loop_next rest el ls blockedCells blockedCells' out :
    snakeFind_runs rest (position el).1 (position el).2
      (js_push blockedCells (position el)) (Ok (false, blockedCells')) →
    loop_runs rest ls (js_pop blockedCells') out →
    loop_runs rest (el :: ls) blockedCells out
| loop_throw rest el ls blockedCells :
    snakeFind_runs rest (position el).1 (position el).2
      (js_push blockedCells (position el)) TypeError →
    loop_runs rest (el :: ls) blockedCells TypeError.

(** The body of the inner scan loop. *)
Inductive cell_runs (searchStr : list char) (row coll : Z)
    : result bool → Prop :=
| cell_throw :
    puzzle_at puzzleArr row coll = TypeError →
    cell_runs searchStr row coll TypeError
| cell_differs x :
    puzzle_at puzzleArr row coll = Ok x →
    strict_eq x (head searchStr) = false →
    cell_runs searchStr row coll (Ok false)
| cell_search x found blockedCells :
    puzzle_at puzzleArr row coll = Ok x →
    strict_eq x (head searchStr) = true →
    snakeFind_runs (tail searchStr) row coll [(row, coll)]
      (Ok (found, blockedCells)) →
    cell_runs searchStr row coll (Ok found)
| cell_search_throw x :
    puzzle_at puzzleArr row coll = Ok x →
    strict_eq x (head searchStr) = true →
    snakeFind_runs (tail searchStr) row coll [(row, coll)] TypeError →
    cell_runs searchStr row coll TypeError.

(** The body of the outer scan loop. *)
Inductive row_runs (searchStr : list char) (row : Z) : result bool → Prop :=
| row_throw :
    js_index puzzleArr row = None →
    row_runs searchStr row TypeError
| row_scan r out :
    js_index puzzleArr row = Some r →
    for_runs (cell_runs searchStr row) (seqZ 0 (Z.of_nat (length r))) out →
    row_runs searchStr row out.
End Runs.

(** A call [findStringInSnakingPuzzle( puzzle, searchStr )] ends with
    [out]. *)
Definition findStringInSnakingPuzzle_runs {char : Type} `{EqDecision char}
    (puzzle : list (list char)) (searchStr : list char)
    (out : result bool) : Prop :=
  for_runs (row_runs puzzle searchStr)
    (seqZ 0 (Z.of_nat (length puzzle))) out.

(** ** Grids *)

(** Every row has [columnCount] characters. *)
Definition rectangular {char : Type} (puzzle : list (list char))
    (columnCount : nat) : Prop :=
  Forall (λ r, length r = columnCount) puzzle.

(** A non-empty rectangular grid. *)
Definition well_formed {char : Type} (puzzle : list (list char)) : Prop :=
  puzzle ≠ [] ∧ ∃ columnCount, rectangular puzzle columnCount.

(** The cells of the row [r] stored at number [row], left to right. *)
Definition row_cells {char : Type} (row : Z) (r : list char) : list cell :=
  (λ coll, (row, coll)) <$> seqZ 0 (Z.of_nat (length r)).

(** The cells of [rows], stored from number [row] on, in row-major
    order. *)
Fixpoint cells_from {char : Type} (row : Z) (rows : list (list char))
    : list cell :=
  match rows with
  | [] => []
  | r :: rows' => row_cells row r ++ cells_from (row + 1) rows'
  end.

Definition all_cells {char : Type} (puzzle : list (list char)) : list cell :=
  cells_from 0 puzzle.

(** ** The example puzzle *)

Definition str (s : string) : list ascii := String.list_ascii_of_string s.
Arguments str s%_string.

Definition example_puzzle : list (list ascii) :=
  [str "ANGULAR"; str "REDNCAE"; str "RFIDTCL"; str "AGNEGSA"; str "YTIRTSP"].

(** A grid of one cell and a grid whose rows differ in length. *)
Definition single_puzzle : list (list ascii) := [str "A"].

Definition ragged_puzzle : list (list ascii) := [str "AB"; str "C"].

(** ** Simple paths

    The character of a cell, defined for the cells inside the grid:
    [0 <= row < rowCount] and [0 <= column < columnCount(row)]. *)

Section Paths.
Context {char : Type} `{EqDecision char}.
Variable puzzle : list (list char).

Definition char_at (p : cell) : option char :=
  match js_index puzzle p.1 with
  | Some r => js_index r p.2
  | None => None
  end.

(** Two cells are adjacent when they differ by exactly one unit in
    exactly one axis. *)
Definition adjacent (p q : cell) : Prop :=
  (p.1 = q.1 ∧ Z.abs (p.2 - q.2) = 1) ∨ (p.2 = q.2 ∧ Z.abs (p.1 - q.1) = 1).

(** Consecutive cells are adjacent. *)
Inductive chain : list cell → Prop :=
| chain_nil : chain []
| chain_one p : chain [p]
| chain_cons p q path : adjacent p q → chain (q :: path) → chain (p :: q :: path).

(** The characters along [path] are those of [query], in order. *)
Definition spells (path : list cell) (query : list char) : Prop :=
  Forall2 (λ p ch, char_at p = Some ch) path query.

(** [query] is the word of a simple path of the grid. *)
Definition snake_word (query : list char) : Prop :=
  ∃ path, NoDup path ∧ chain path ∧ spells path query.

(** The path ending in [p], whose cells are [blocked], extends by
    fresh cells that spell [rest]. *)
Definition extends (blocked : list cell) (p : cell) (rest : list char) : Prop :=
  ∃ path, chain (p :: path) ∧ NoDup path ∧
          (∀ q, q ∈ path → q ∉ blocked) ∧ spells path rest.


(** The four cells probed around [p], in the order of
    [getLettersAround]. *)
Definition neighbours (p : cell) : list cell :=
  [(p.1 - 1, p.2); (p.1, p.2 + 1); (p.1 + 1, p.2); (p.1, p.2 - 1)].

(** The letter object of a cell that holds [ch], if it does. *)
Definition hit (ch : char) (q : cell) : option (letterObj char) :=
  if decide (char_at q = Some ch)
  then Some (LetterObj (Some ch) q.1 q.2)
  else None.

(** What each helper returns for the cell [(row, coll)], with the cell
    it probes. *)
Definition probes (row coll : Z)
    : list (result (option (letterObj char)) * cell) :=
  [(getTopLetter puzzle row coll, (row - 1, coll));
   (getRightLetter puzzle row coll, (row, coll + 1));
   (getBottomLetter puzzle row coll, (row + 1, coll));
   (getLeftLetter puzzle row coll, (row, coll - 1))].

(** What a call of [snakeFind] on [rest] does from a cell of a stored
    row: it does not throw, a failed call leaves [blockedCells] as it
    found it, and it succeeds exactly when the path extends. *)
Definition searches (call : Z → Z → list cell → result (bool * list cell))
    (rest : list char) : Prop :=
  ∀ row coll blocked, is_Some (js_index puzzle row) →
    ∃ found blocked', call row coll blocked = Ok (found, blocked') ∧
      (found = false → blocked' = blocked) ∧
      (found = true ↔ extends blocked (row, coll) rest).
End Paths.

(** ** getPermutations

    The generator is modelled by the list of the strings it yields, in
    order, when it is run to its end.  [chars] and [mutation] are local
    variables that the loop reassigns; they are threaded through it.
    The recursion goes down on the strings [chars], which get shorter
    but are no subterms: [fuel] bounds the depth of the calls and the
    number of passes of each loop, and [None] means that it ran out. *)

(** [s.charAt( i )]: the empty string outside [s]. *)
Definition charAt {char : Type} (s : list char) (i : nat) : list char :=
  match s !! i with
  | Some c => [c]
  | None => []
  end.

(** [s.slice( from, to )] and [s.slice( from )] for indices from 0 on. *)
Definition slice {char : Type} (s : list char) (from to : nat) : list char :=
  take (to - from) (drop from s).

Definition slice_from {char : Type} (s : list char) (from : nat) : list char :=
  drop from s.

(** The [for] loop; [call] is the recursive call
    [getPermutations( chars, mutation )], [yielded] the strings yielded
    so far, [passes] the bound on the number of passes. *)
Definition getPermutations_loop {char : Type}
    (call : list char → list char → option (list (list char)))
    : nat → nat → list char → list char → list (list char) →
      option (list (list char)) :=
  fix loop (passes i : nat) (chars mutation : list char)
      (yielded : list (list char)) :=
    if decide (i < length chars)%nat then
      match passes with
      | O => None
      | S passes =>
          let char := charAt chars i in
          let mutation := mutation ++ char in
          let chars := slice chars 0 i ++ slice_from chars (i + 1) in
          match call chars mutation with
          | None => None
          | Some inner =>
              let yielded := yielded ++ inner in
              let mutation := slice mutation 0 (length mutation - 1) in
              let chars := slice chars 0 i ++ char ++ slice_from chars i in
              loop passes (i + 1)%nat chars mutation yielded
          end
      end
    else Some yielded.

Fixpoint getPermutations_fuel {char : Type} (fuel : nat)
    (chars mutation : list char) : option (list (list char)) :=
  match fuel with
  | O => None
  | S fuel =>
      let yielded :=
        if decide (length chars = 0%nat) then [mutation] else [] in
      getPermutations_loop (getPermutations_fuel fuel) fuel 0%nat
        chars mutation yielded
  end.

(** The call [getPermutations( chars )] of the module's users: one
    argument, so [mutation] starts empty. *)
Definition getPermutations {char : Type} (chars : list char)
    : option (list (list char)) :=
  getPermutations_fuel (S (length chars)) chars [].

(** The permutations of [chars], a string of [n] characters, in the
    order in which the generator yields them: by the place of the first
    character, then by the permutation of the others. *)
Fixpoint permutations_of {char : Type} (n : nat) (chars : list char)
    : list (list char) :=
  match n with
  | O => [[]]
  | S n =>
      mjoin (imap (λ i c, (c ::.) <$> permutations_of n (delete i chars)) chars)
  end.

(** ** Numbers

    A number is a double.  The functions below that compute with
    numbers start from integers and add, subtract and multiply by ten,
    so that their values are integers, the two infinities and [NaN].
    An integer is a double when 53 bits and a power of two write it, as
    every integer up to [2 ^ 53] in magnitude.  An operation returns
    the double that is nearest to the exact result, the one with the
    even significand when two are as near, and an infinity from
    [2 ^ 1024 - 2 ^ 970] on.  The two zeros are not told apart. *)

Inductive number : Type :=
| Finite (z : Z)
| Infinity
| NegInfinity
| NaN.

Global Instance number_eq_dec : EqDecision number.
Proof. solve_decision. Defined.

(** The double nearest to the integer [z].  From 54 bits on, [below]
    is the number that the 53 leading bits of the magnitude write and
    [rest] the one that the other bits write, [exponent] of them;
    [half] is the middle between two doubles. *)
Definition to_double (z : Z) : number :=
  let exponent := Z.log2 (Z.abs z) - 52 in
  if decide (exponent ≤ 0) then Finite z else
  let below := Z.shiftr (Z.abs z) exponent in
  let rest := Z.land (Z.abs z) (Z.ones exponent) in
  let half := Z.shiftl 1 (exponent - 1) in
  let significand :=
    if decide (rest < half) then below
    else if decide (half < rest) then below + 1
    else if Z.even below then below else below + 1 in
  if decide (Z.shiftl 1 1024 ≤ Z.shiftl significand exponent)
  then if decide (0 ≤ z) then Infinity else NegInfinity
  else Finite (Z.sgn z * Z.shiftl significand exponent).

(** [x + y] *)
Definition js_add (x y : number) : number :=
  match x, y with
  | Finite a, Finite b => to_double (a + b)
  | NaN, _ | _, NaN => NaN
  | Infinity, NegInfinity | NegInfinity, Infinity => NaN
  | Infinity, _ | _, Infinity => Infinity
  | NegInfinity, _ | _, NegInfinity => NegInfinity
  end.

(** [x - y] *)
Definition js_sub (x y : number) : number :=
  match x, y with
  | Finite a, Finite b => to_double (a - b)
  | NaN, _ | _, NaN => NaN
  | Infinity, Infinity | NegInfinity, NegInfinity => NaN
  | Infinity, _ | _, NegInfinity => Infinity
  | NegInfinity, _ | _, Infinity => NegInfinity
  end.

(** [x * y] *)
Definition js_mul (x y : number) : number :=
  match x, y with
  | Finite a, Finite b => to_double (a * b)
  | NaN, _ | _, NaN => NaN
  | Finite a, Infinity | Infinity, Finite a =>
      if decide (a = 0) then NaN
      else if decide (0 < a) then Infinity else NegInfinity
  | Finite a, NegInfinity | NegInfinity, Finite a =>
      if decide (a = 0) then NaN
      else if decide (0 < a) then NegInfinity else Infinity
  | Infinity, Infinity | NegInfinity, NegInfinity => Infinity
  | Infinity, NegInfinity | NegInfinity, Infinity => NegInfinity
  end.

(** The doubles of the proof assistant, which are those of the
    program: the double that is the number [x], and the number that a
    double is when it is an integer, an infinity or [NaN]. *)
Definition float_of (x : number) : PrimFloat.float :=
  match x with
  | Finite z =>
      let exponent := Z.max 0 (Z.log2 (Z.abs z) - 52) in
      let f := FloatOps.Z.ldexp
                 (PrimFloat.of_uint63
                    (Uint63.of_Z (Z.shiftr (Z.abs z) exponent)))
                 exponent in
      if decide (z < 0) then PrimFloat.opp f else f
  | Infinity => PrimFloat.infinity
  | NegInfinity => PrimFloat.neg_infinity
  | NaN => PrimFloat.nan
  end.

Definition number_of_float (f : PrimFloat.float) : number :=
  match FloatOps.Prim2SF f with
  | SpecFloat.S754_zero _ => Finite 0
  | SpecFloat.S754_infinity false => Infinity
  | SpecFloat.S754_infinity true => NegInfinity
  | SpecFloat.S754_nan => NaN
  | SpecFloat.S754_finite sign m e =>
      let magnitude := Z.shiftl (Z.pos m) e in
      Finite (if sign then - magnitude else magnitude)
  end.

(** Numbers on which the operations are compared with those of the
    doubles: small ones, the ones around [2 ^ 53] where rounding
    starts, and the largest. *)
Definition sample_numbers : list number :=
  [Finite 0; Finite 1; Finite (-1); Finite 3; Finite 10; Finite (-7);
   Finite (2 ^ 53 - 1); Finite (2 ^ 53); Finite (- 2 ^ 53);
   Finite (2 ^ 53 + 2); Finite (2 ^ 54 - 2); Finite (3 * 2 ^ 53);
   Finite (2 ^ 60 + 256); Finite 999999999999999; Finite (- 2 ^ 512);
   Finite (2 ^ 970); Finite (2 ^ 971); Finite (2 ^ 1023);
   Finite (2 ^ 1024 - 2 ^ 971); Finite (- (2 ^ 1024 - 2 ^ 971));
   Infinity; NegInfinity; NaN].

(** ** getMostProfitFromStockQuotes

    The quotes are integers that are doubles; the profit is a number. *)

(** [Math.max.apply( Math, arr )]; [None] is [-Infinity], its value on
    the empty array. *)
Definition Math_max (arr : list Z) : option Z :=
  foldr (λ x m, Some (match m with Some y => Z.max x y | None => x end))
    None arr.

(** [price < nextMaxPrice] *)
Definition below (price : Z) (nextMaxPrice : option Z) : bool :=
  match nextMaxPrice with
  | Some m => bool_decide (price < m)
  | None => false
  end.

(** [buyPositions.reduce( ( summ, buyPrice ) => summ + ( price - buyPrice ), 0 )] *)
Definition sell_all (price : Z) (buyPositions : list Z) : number :=
  foldl (λ summ buyPrice, js_add summ (js_sub (Finite price) (Finite buyPrice)))
    (Finite 0) buyPositions.

(** One pass of the loop, on the variables [buyPositions] and [profit].
    The index [i] is below [quotes.length], so that [quotes[ i ]] is
    defined. *)
Definition quote_pass (quotes : list Z) (state : list Z * number) (i : nat)
    : list Z * number :=
  let buyPositions := state.1 in
  let profit := state.2 in
  match quotes !! i with
  | Some price =>
      let nextMaxPrice := Math_max (drop (i + 1) quotes) in
      if below price nextMaxPrice
      then (js_push buyPositions price, profit)
      else if bool_decide (length buyPositions ≠ 0%nat)
      then ([], js_add profit (sell_all price buyPositions))
      else state
  | None => state
  end.

Definition getMostProfitFromStockQuotes (quotes : list Z) : number :=
  (foldl (quote_pass quotes) ([], Finite 0) (seq 0 (length quotes))).2.

(** The integers that are doubles. *)
Definition is_double (z : Z) : Prop := to_double z = Finite z.

(** What selling the units bought at [buyPositions] brings at [price],
    less what they cost. *)
Definition proceeds (price : Z) (buyPositions : list Z) : Z :=
  foldl (λ summ buyPrice, summ + (price - buyPrice)) 0 buyPositions.

(** The highest price from a day on, less the price of that day, summed
    over the days. *)
Fixpoint best_gains (quotes : list Z) : Z :=
  match quotes with
  | [] => 0
  | price :: later =>
      match Math_max later with
      | Some m => Z.max price m - price
      | None => 0
      end + best_gains later
  end.

(** What the documentation of the function allows on a day: buy one
    unit, sell any number of the units held, or nothing. *)
Inductive action : Type :=
| Buy
| Sell (units : nat)
| Nothing.

(** The money at the end of a plan, one action a day, from [cash] and
    [held] units; [None] when the plan sells units that are not held or
    has not one action for every day. *)
Fixpoint trade (quotes : list Z) (plan : list action) (cash : Z) (held : nat)
    : option Z :=
  match quotes, plan with
  | [], [] => Some cash
  | price :: quotes, Buy :: plan => trade quotes plan (cash - price) (S held)
  | price :: quotes, Sell units :: plan =>
      if decide (units ≤ held)%nat
      then trade quotes plan (cash + Z.of_nat units * price) (held - units)
      else None
  | price :: quotes, Nothing :: plan => trade quotes plan cash held
  | _, _ => None
  end.

(** The plan that the function follows: buy while a higher price is to
    come, and sell everything on the other days. *)
Fixpoint plan_of (quotes : list Z) (held : nat) : list action :=
  match quotes with
  | [] => []
  | price :: later =>
      if below price (Math_max later)
      then Buy :: plan_of later (S held)
      else Sell held :: plan_of later 0
  end.

(** ** Exceptions and strings of code points *)

Inductive exception : Type :=
| Disallowed_char (char : N)
| Invalid_code
| Unrecognized_number
| JsTypeError
| JsRangeError.

Inductive completion (A : Type) : Type :=
| Normal (a : A)
| Throw (e : exception).
Arguments Normal {A} a.
Arguments Throw {A} e.

Global Instance exception_eq_dec : EqDecision exception.
Proof. solve_decision. Defined.

Global Instance completion_eq_dec {A : Type} `{EqDecision A} :
  EqDecision (completion A).
Proof. solve_decision. Defined.

Global Instance completion_bind : MBind completion := λ A B k m,
  match m with
  | Normal a => k a
  | Throw e => Throw e
  end.

(** [arr.map( f )] and [arr.reduce( f, init )] with a callback that can
    throw. *)
Fixpoint mapC {A B} (f : A → completion B) (l : list A) : completion (list B) :=
  match l with
  | [] => Normal []
  | x :: l' => y ← f x; ys ← mapC f l'; Normal (y :: ys)
  end.

Fixpoint reduceC {A B} (f : B → A → completion B) (init : B) (l : list A)
    : completion B :=
  match l with
  | [] => Normal init
  | x :: l' => acc ← f init x; reduceC f acc l'
  end.

(** The code points of a string of the Standard Library. *)
Definition code_points (s : string) : list N :=
  N_of_ascii <$> String.list_ascii_of_string s.
Arguments code_points s%_string.

(** ** findStringInSnakingPuzzle on a call stack

    A call that has not returned holds a frame of the call stack, and a
    call that finds no room for its frame throws a [RangeError].  How
    many frames fit is a matter of the engine.  The stack is measured in
    calls of [snakeFind], which are the ones that go deep: [frames] is
    the number of calls of [snakeFind], one inside the other, for which
    there is room when [findStringInSnakingPuzzle] starts to scan the
    grid, and [helper_frames] is the room that a call of [snakeFind]
    needs above its frame for the calls that it makes before it calls
    itself, those of the helpers, of [getLetterObj] and of the callbacks
    of [map], [filter] and [every], which have all returned by then.  A
    call on an empty [searchStr] returns before it calls anything.  No
    exception is caught: the first one ends the call of
    [findStringInSnakingPuzzle]. *)

(** The outcome of a part of the program that has room on the stack. *)
Definition completion_of {A} (r : result A) : completion A :=
  match r with
  | Ok a => Normal a
  | TypeError => Throw JsTypeError
  end.

(** [for ( i = 0; i < n; i++ ) { if ( body( i ) ) return true; }
    return false;] *)
Fixpoint for_return_within {A} (body : A → completion bool) (l : list A)
    : completion bool :=
  match l with
  | [] => Normal false
  | i :: l' =>
      hit ← body i;
      if hit : bool then Normal true else for_return_within body l'
  end.

Section Stack.
Context {char : Type} `{EqDecision char}.
Variable puzzleArr : list (list char).
Variable helper_frames : nat.

(** The [for] loop of [snakeFind]. *)
Definition snakeFind_loop_within
    (call : Z → Z → list cell → completion (bool * list cell))
    : list (letterObj char) → list cell → completion (bool * list cell) :=
  fix loop (ls : list (letterObj char)) (blockedCells : list cell) :=
    match ls with
    | [] => Normal (false, blockedCells)
    | el :: ls' =>
        let r := (position el).1 in
        let c := (position el).2 in
        let blockedCells := js_push blockedCells (r, c) in
        '(found, blockedCells) ← call r c blockedCells;
        if found : bool
        then Normal (true, blockedCells)
        else loop ls' (js_pop blockedCells)
    end.

(** [snakeFind] called with room for [frames] frames, the one of the
    call included. *)
Fixpoint snakeFind_within (frames : nat) (searchStr : list char)
    (row coll : Z) (blockedCells : list cell)
    : completion (bool * list cell) :=
  match frames with
  | O => Throw JsRangeError
  | S frames =>
      match searchStr with
      | [] => Normal (true, blockedCells)
      | findLetter :: rest =>
          if decide (frames < helper_frames)%nat then Throw JsRangeError else
          ls ← completion_of
                 (lettersAround puzzleArr row coll (Some findLetter)
                    blockedCells);
          snakeFind_loop_within (snakeFind_within frames rest) ls blockedCells
      end
  end.

Definition scan_cell_within (frames : nat) (searchStr : list char)
    (row coll : Z) : completion bool :=
  let firstChar := head searchStr in
  x ← completion_of (puzzle_at puzzleArr row coll);
  if strict_eq x firstChar
  then '(found, _) ← snakeFind_within frames (tail searchStr) row coll
                       [(row, coll)];
       Normal found
  else Normal false.

Definition scan_row_within (frames : nat) (searchStr : list char) (row : Z)
    : completion bool :=
  match js_index puzzleArr row with
  | None => Throw JsTypeError
  | Some r =>
      for_return_within (scan_cell_within frames searchStr row)
        (seqZ 0 (Z.of_nat (length r)))
  end.

Definition scan_within (frames : nat) (searchStr : list char)
    : completion bool :=
  for_return_within (scan_row_within frames searchStr)
    (seqZ 0 (Z.of_nat (length puzzleArr))).
End Stack.

(** The call [findStringInSnakingPuzzle( puzzle, searchStr )] on a stack
    with room for [frames] calls of [snakeFind], each of which needs
    [helper_frames] more for the calls it makes. *)
Definition findStringInSnakingPuzzle_within {char : Type} `{EqDecision char}
    (frames helper_frames : nat) (puzzle : list (list char))
    (searchStr : list char) : completion bool :=
  let puzzleArr := puzzle in
  scan_within puzzleArr helper_frames frames searchStr.

(** An outcome [within] on the stack agrees with the outcome [unbound]
    of the same part of the program read without a bound on the stack:
    it is that outcome or a [RangeError], and it is that outcome when
    there is [room]. *)
Definition agrees {A} (room : Prop) (within : completion A) (unbound : result A)
    : Prop :=
  (within = completion_of unbound ∨ within = Throw JsRangeError) ∧
  (room → within = completion_of unbound).

(** A row of eight thousand cells that hold the same letter. *)
Definition long_row : list ascii := replicate (Z.to_nat 8000) "A"%char.

(** ** UrlShortener

    A url and a short link are modelled by the lists of their code
    points, as [Array.from] splits them; the strings of decimal digits
    that the methods build are strings of the Standard Library. *)

(** [n.toString()] for a number that is a natural number. *)
Definition toString (n : N) : string :=
  DecimalString.NilEmpty.string_of_uint (N.to_uint n).

(** The number that a string of decimal digits stands for, as [Number]
    and [parseInt] read it; the empty string is read by [Number] as 0.
    The methods apply them to strings of digits only; [None], for a
    string with another character, is kept apart. *)
Definition digits_value (s : string) : option N :=
  match DecimalString.NilEmpty.uint_of_string s with
  | Some d => Some (N.of_uint d)
  | None => None
  end.

Definition urlAllowedChars : list N :=
  N_of_ascii <$>
    (str "ABCDEFGHIJKLMNOPQRSTUVWXYZ" ++
     str "abcdefghijklmnopqrstuvwxyz" ++
     str "0123456789-_.~!*'();:@&=+$,/?#[]").

(** [this.urlAllowedChars.indexOf( char )] for a string [char] of one
    code point; [None] is [-1]. *)
Definition indexOf (char : N) : option N :=
  match list_find (λ c, c = char) urlAllowedChars with
  | Some (i, _) => Some (N.of_nat i)
  | None => None
  end.

Definition getXXPosition (char : N) : completion string :=
  match indexOf char with
  | None => Throw (Disallowed_char char)
  | Some index =>
      if (9 <? index)%N
      then Normal (toString index)
      else Normal (String.append "0" (toString index))
  end.

(** The callback of [reduce] in [encode]; [result[ result.length - 1 ]]
    is [undefined] on an empty array, and reading its [length] throws. *)
Definition pack (result : list string) (code : string)
    : completion (list string) :=
  match last result with
  | None => Throw JsTypeError
  | Some lastCode =>
      if (2 <? String.length lastCode)%nat
      then Normal (js_push result code)
      else Normal (removelast result ++ [String.append lastCode code])
  end.

(** [String.fromCodePoint] on strings of digits: each is converted to a
    number, which has to be a code point. *)
Definition fromCodePoint (codes : list string) : completion (list N) :=
  mapC (λ code,
          match digits_value code with
          | Some n => if (n <=? 1114111)%N then Normal n else Throw JsRangeError
          | None => Throw JsRangeError
          end) codes.

Definition encode (url : list N) : completion (list N) :=
  codeArr ← mapC getXXPosition url;
  compressedCodes ← reduceC pack [EmptyString] codeArr;
  fromCodePoint compressedCodes.

(** [code.match( /.{2}/g )] on a string of digits: its pairs of
    characters, from the left.  The strings matched here have two
    characters or more, so that the result is not [null]. *)
Fixpoint match_pairs (code : string) : list string :=
  match code with
  | String a (String b rest) =>
      String a (String b EmptyString) :: match_pairs rest
  | _ => []
  end.

(** The callback of [reduce] in [decode]. *)
Definition unpack (result : list string) (code : string) : list string :=
  let code :=
    if Nat.odd (String.length code) then String.append "0" code else code in
  result ++ match_pairs code.

(** [urlAllowedChars[ parseInt( position ) ]] is [undefined] when the
    number is not an index of the string.  Every [position] is a string
    of two digits. *)
Definition getCharByPosition (position : string) : completion N :=
  match digits_value position with
  | Some n =>
      match urlAllowedChars !! N.to_nat n with
      | Some char => Normal char
      | None => Throw Invalid_code
      end
  | None => Throw Invalid_code
  end.

Definition decode (code : list N) : completion (list N) :=
  let compressedCodes := toString <$> code in
  let codeArr := foldl unpack [] compressedCodes in
  mapC getCharByPosition codeArr.


(** The index of an allowed character, and the two digits that
    [getXXPosition] writes for an index. *)
Definition position_of (char : N) : N :=
  match indexOf char with
  | Some index => index
  | None => 0%N
  end.

Definition two_digits (index : N) : string :=
  if (9 <? index)%N then toString index else String.append "0" (toString index).

(** The strings that [encode] packs two by two. *)
Fixpoint packed (codes : list string) : list string :=
  match codes with
  | code1 :: code2 :: codes => String.append code1 code2 :: packed codes
  | _ => codes
  end.

(** The code points of the short link of a url that is not empty: one
    for two characters, and one for the last character of a url of odd
    length. *)
Fixpoint short_link (url : list N) : list N :=
  match url with
  | a :: b :: url => (100 * position_of a + position_of b)%N :: short_link url
  | [a] => [position_of a]
  | [] => []
  end.

(** What [decode] reads back from the short link of a url: of two
    characters packed together, a first one that is [A], the allowed
    character of index 0, is lost. *)
Fixpoint read_back (url : list N) : list N :=
  match url with
  | a :: b :: url =>
      (if decide (a = 65%N) then [b] else [a; b]) ++ read_back url
  | _ => url
  end.

(** No [A] is the first of two characters packed together. *)
Fixpoint keeps_pairs (url : list N) : Prop :=
  match url with
  | a :: b :: url => a ≠ 65%N ∧ keeps_pairs url
  | _ => True
  end.

(** Every character of the url is one of [urlAllowedChars]. *)
Definition allowed (url : list N) : Prop :=
  Forall (λ char, char ∈ urlAllowedChars) url.

(** ** parseBankAccount

    The text is the list of its UTF-16 code units.  The account number
    is built by [result * 10 + digit] on numbers. *)

(** The characters that [.] does not match in a regular expression. *)
Definition line_terminator (c : N) : bool :=
  bool_decide (c ∈ [10; 13; 8232; 8233]%N).

(** [s.split( '\n' )] *)
Fixpoint split_newline (s : list N) : list (list N) :=
  match s with
  | [] => [[]]
  | c :: s' =>
      if (c =? 10)%N then [] :: split_newline s'
      else match split_newline s' with
           | line :: lines => (c :: line) :: lines
           | [] => [[c]]
           end
  end.

(** The matches of [/.{3}/g] in [el], from the left: three characters
    that are no line terminators; the search goes on after a match, and
    one character further where there is none. *)
Fixpoint match_threes (el : list N) : list (list N) :=
  match el with
  | a :: el1 =>
      match el1 with
      | b :: c :: rest =>
          if negb (line_terminator a) && negb (line_terminator b) &&
             negb (line_terminator c)
          then [a; b; c] :: match_threes rest
          else match_threes el1
      | _ => []
      end
  | [] => []
  end.

(** [el.match( /.{3}/g )]: [null] ([None]) when there is no match. *)
Definition match_dots (el : list N) : option (list (list N)) :=
  match match_threes el with
  | [] => None
  | chunks => Some chunks
  end.

Definition digitMap : list (list N * N) :=
  [(code_points " _ | ||_|", 0%N);
   (code_points "     |  |", 1%N);
   (code_points " _  _||_ ", 2%N);
   (code_points " _  _| _|", 3%N);
   (code_points "   |_|  |", 4%N);
   (code_points " _ |_  _|", 5%N);
   (code_points " _ |_ |_|", 6%N);
   (code_points " _   |  |", 7%N);
   (code_points " _ |_||_|", 8%N);
   (code_points " _ |_| _|", 9%N)].

(** The names that every object inherits: [in] finds them too, and
    their values are functions and objects, not digits. *)
Definition inherited_names : list (list N) :=
  [code_points "__defineGetter__"; code_points "__defineSetter__";
   code_points "__lookupGetter__"; code_points "__lookupSetter__";
   code_points "__proto__"; code_points "constructor";
   code_points "hasOwnProperty"; code_points "isPrototypeOf";
   code_points "propertyIsEnumerable"; code_points "toLocaleString";
   code_points "toString"; code_points "valueOf"].

(** The value of [result]: a number, or what comes of adding a function
    or an object to it, a string or [NaN]. *)
Inductive parsed : Type :=
| Number (x : number)
| Not_a_number.

(** [digitChunks[ k ][ i ]] in a string concatenation: reading an index
    of [undefined] or [null] throws, and a missing element is written
    as [undefined]. *)
Definition chunk_at (digitChunks : list (option (list (list N)))) (k i : nat)
    : completion (list N) :=
  match digitChunks !! k with
  | Some (Some chunks) =>
      match chunks !! i with
      | Some chunk => Normal chunk
      | None => Normal (code_points "undefined")
      end
  | _ => Throw JsTypeError
  end.

(** The callback of [reduce]. *)
Definition read_digit (digitChunks : list (option (list (list N))))
    (result : parsed) (el : list N) (i : nat) : completion parsed :=
  second ← chunk_at digitChunks 1 i;
  third ← chunk_at digitChunks 2 i;
  let digitStr := el ++ second ++ third in
  match list_find (λ entry, entry.1 = digitStr) digitMap with
  | Some (_, (_, digit)) =>
      match result with
      | Number x =>
          Normal (Number (js_add (js_mul x (Finite 10)) (Finite (Z.of_N digit))))
      | Not_a_number => Normal Not_a_number
      end
  | None =>
      if bool_decide (digitStr ∈ inherited_names)
      then Normal Not_a_number
      else Throw Unrecognized_number
  end.

(** [arr.reduce( f, init )] with a callback that takes the index. *)
Fixpoint reduce_index {A B} (f : B → A → nat → completion B) (init : B)
    (l : list A) (i : nat) : completion B :=
  match l with
  | [] => Normal init
  | x :: l' => acc ← f init x i; reduce_index f acc l' (S i)
  end.

Definition parseBankAccount (bankAccount : list N) : completion parsed :=
  let digitChunks := match_dots <$> split_newline bankAccount in
  match digitChunks !! 0%nat with
  | Some (Some chunks) =>
      reduce_index (read_digit digitChunks) (Number (Finite 0)) chunks 0
  | _ => Throw JsTypeError
  end.

(** The nine characters that draw a digit, and the text of an account
    number: the three rows of its digits, each with its line end. *)
Definition picture (digit : N) : list N :=
  match list_find (λ entry, entry.2 = digit) digitMap with
  | Some (_, (drawing, _)) => drawing
  | None => []
  end.

Definition draw (digits : list N) : list N :=
  mjoin ((λ d, take 3 (picture d)) <$> digits) ++ [10%N] ++
  mjoin ((λ d, take 3 (drop 3 (picture d))) <$> digits) ++ [10%N] ++
  mjoin ((λ d, drop 6 (picture d)) <$> digits) ++ [10%N].

(** The number written with the decimal digits [digits]. *)
Definition number_of (digits : list N) : N :=
  foldl (λ n d, n * 10 + d)%N 0%N digits.

(** ** Arrays and loops *)

Lemma js_index_Some {A} (arr : list A) (i : Z) (x : A) :
  js_index arr i = Some x ↔ 0 ≤ i ∧ arr !! Z.to_nat i = Some x.
Proof.
  unfold js_index. destruct (decide (0 ≤ i)); [tauto|].
  split; [discriminate|]. intros [? _]. lia.
Qed.

Lemma js_index_is_Some {A} (arr : list A) (i : Z) :
  is_Some (js_index arr i) ↔ 0 ≤ i < Z.of_nat (length arr).
Proof.
  split.
  - intros [x [Hi Hx]%js_index_Some]. apply lookup_lt_Some in Hx. lia.
  - intros [Hi Hlt]. destruct (lookup_lt_is_Some_2 arr (Z.to_nat i)) as [x Hx]; [lia|].
    exists x. by apply js_index_Some.
Qed.

Lemma js_pop_push {A} (arr : list A) (x : A) : js_pop (js_push arr x) = arr.
Proof. apply removelast_last. Qed.

Lemma for_return_Ok {A} (body : A → result bool) (l : list A) :
  (∀ i, i ∈ l → ∃ hit, body i = Ok hit) →
  ∃ b, for_return body l = Ok b ∧ (b = true ↔ ∃ i, i ∈ l ∧ body i = Ok true).
Proof.
  induction l as [|i l IH]; intros Hbody; simpl.
  - exists false. split; [done|]. split; [done|]. intros (i & Hi & _). by apply elem_of_nil in Hi.
  - destruct (Hbody i) as [hit Hhit]; [left|]. rewrite Hhit. simpl.
    destruct hit.
    + exists true. split; [done|]. split; [|done]. intros _. exists i. split; [left|done].
    + destruct IH as (b & Hb & Hiff).
      { intros j Hj. apply Hbody. by right. }
      exists b. split; [done|]. rewrite Hiff. split.
      * intros (j & Hj & Hbj). exists j. split; [by right|done].
      * intros (j & Hj & Hbj). apply elem_of_cons in Hj as [->|Hj].
        -- congruence.
        -- by exists j.
Qed.

(** ** The neighbour helpers *)

Section Helpers.
Context {char : Type} `{EqDecision char}.
Variable puzzle : list (list char).

Implicit Types (p q : cell) (ch : char) (blocked : list cell).

Lemma char_at_Some p ch :
  char_at puzzle p = Some ch ↔
  ∃ r, js_index puzzle p.1 = Some r ∧ js_index r p.2 = Some ch.
Proof.
  unfold char_at. destruct (js_index puzzle p.1) as [r|].
  - split; [by exists r|]. by intros (r' & [= <-] & Hr).
  - split; [done|]. by intros (r' & [=] & _).
Qed.

Lemma puzzle_at_row row coll r :
  js_index puzzle row = Some r →
  puzzle_at puzzle row coll = Ok (char_at puzzle (row, coll)).
Proof. unfold puzzle_at, char_at. simpl. by intros ->. Qed.

Lemma strict_eq_Some (x : option char) ch :
  strict_eq x (Some ch) = true ↔ x = Some ch.
Proof.
  destruct x as [a|]; simpl; [|done].
  rewrite bool_decide_eq_true. split; [by intros ->|by intros [= ->]].
Qed.

Lemma strict_eq_None (x : option char) : strict_eq x None = false.
Proof. by destruct x. Qed.

(** A helper that probes another row never throws; one that probes the
    row of the cell throws when that row is absent. *)
Lemma vertical_helper (row coll : Z) ch :
  is_Some (js_index puzzle row) →
  ∀ row', ∃ o,
    match js_index puzzle row' with
    | None => Ok None
    | Some _ => o ← getLetterObj puzzle row' coll; Ok (Some o)
    end = Ok o ∧
    has_letter (Some ch) o = hit puzzle ch (row', coll).
Proof.
  intros _ row'. unfold getLetterObj, hit, has_letter.
  destruct (js_index puzzle row') as [r|] eqn:Hr.
  - rewrite (puzzle_at_row _ _ r Hr). simpl. eexists. split; [done|]. simpl.
    destruct (strict_eq _ _) eqn:Heq.
    + apply strict_eq_Some in Heq. rewrite decide_True by done. by rewrite Heq.
    + rewrite decide_False; [done|]. intros Hc%strict_eq_Some. congruence.
  - exists None. split; [done|]. rewrite decide_False; [done|].
    unfold char_at. simpl. by rewrite Hr.
Qed.

Lemma horizontal_helper (row coll : Z) ch :
  is_Some (js_index puzzle row) →
  ∀ coll', ∃ o,
    (x ← puzzle_at puzzle row coll';
     match x with
     | None => Ok None
     | Some _ => o ← getLetterObj puzzle row coll'; Ok (Some o)
     end) = Ok o ∧
    has_letter (Some ch) o = hit puzzle ch (row, coll').
Proof.
  intros [r Hr] coll'. unfold getLetterObj, hit, has_letter.
  rewrite (puzzle_at_row _ _ r Hr). simpl.
  destruct (char_at puzzle (row, coll')) as [x|] eqn:Hx.
  - eexists. split; [done|]. simpl.
    destruct (decide (x = ch)) as [->|Hne].
    + rewrite bool_decide_true by done. by rewrite decide_True.
    + rewrite bool_decide_false by done. rewrite decide_False; [done|]. congruence.
  - exists None. split; [done|]. by rewrite decide_False.
Qed.

Lemma lettersAround_eq (row coll : Z) ch blocked :
  is_Some (js_index puzzle row) →
  lettersAround puzzle row coll (Some ch) blocked =
  Ok (filter (not_blocked blocked) (omap (hit puzzle ch) (neighbours (row, coll)))).
Proof.
  intros Hrow. unfold lettersAround, getLettersAround, unblocked_matches. simpl.
  destruct (vertical_helper row coll ch Hrow (row - 1)) as (top & Etop & Htop).
  destruct (horizontal_helper row coll ch Hrow (coll + 1)) as (right & Eright & Hright).
  destruct (vertical_helper row coll ch Hrow (row + 1)) as (bottom & Ebottom & Hbottom).
  destruct (horizontal_helper row coll ch Hrow (coll - 1)) as (left & Eleft & Hleft).
  unfold getTopLetter, getRightLetter, getBottomLetter, getLeftLetter.
  rewrite Etop. simpl. rewrite Eright. simpl. rewrite Ebottom. simpl.
  rewrite Eleft. simpl.
  by rewrite Htop, Hright, Hbottom, Hleft.
Qed.

(** Probes that fall outside the grid. *)
Lemma vertical_probe (row row' coll : Z) :
  row' ≠ row → char_at puzzle (row', coll) = None →
  ∃ o,
    match js_index puzzle row' with
    | None => Ok None
    | Some _ => o ← getLetterObj puzzle row' coll; Ok (Some o)
    end = Ok o ∧
    (o = None ↔ (row', coll).1 = row ∨ js_index puzzle (row', coll).1 = None) ∧
    (∀ el, o = Some el → el = LetterObj None (row', coll).1 (row', coll).2) ∧
    (∀ findLetter, has_letter findLetter o = None).
Proof.
  intros Hne Hq. unfold getLetterObj. simpl.
  destruct (js_index puzzle row') as [r'|] eqn:Hr'.
  - rewrite (puzzle_at_row _ _ r' Hr'), Hq. simpl. eexists. split; [done|].
    split; [|split].
    + split; [done|]. by intros [?|?].
    + by intros el [= <-].
    + done.
  - exists None. split; [done|]. split; [|split]; try done.
    split; [by right|done].
Qed.

Lemma horizontal_probe (row coll' : Z) (r : list char) :
  js_index puzzle row = Some r → char_at puzzle (row, coll') = None →
  ∃ o,
    (x ← puzzle_at puzzle row coll';
     match x with
     | None => Ok None
     | Some _ => o ← getLetterObj puzzle row coll'; Ok (Some o)
     end) = Ok o ∧
    (o = None ↔ (row, coll').1 = row ∨ js_index puzzle (row, coll').1 = None) ∧
    (∀ el, o = Some el → el = LetterObj None (row, coll').1 (row, coll').2) ∧
    (∀ findLetter, has_letter findLetter o = None).
Proof.
  intros Hr Hq. rewrite (puzzle_at_row _ _ r Hr), Hq. simpl.
  exists None. split; [done|]. split; [|split]; try done.
  split; [by left|done].
Qed.
End Helpers.

(** ** The backtracking search *)

Section Search.
Context {char : Type} `{EqDecision char}.
Variable puzzle : list (list char).

Implicit Types (p q : cell) (ch : char) (blocked : list cell)
  (el : letterObj char) (rest : list char).

Lemma not_blocked_iff blocked el :
  not_blocked blocked el ↔ position el ∉ blocked.
Proof.
  unfold not_blocked, position. rewrite Forall_forall. split.
  - intros Hall Hin. destruct (Hall _ Hin) as [Hne|Hne]; by apply Hne.
  - intros Hnin [r c] Hin. simpl.
    destruct (decide (r = row el)) as [->|]; [|by left].
    destruct (decide (c = coll el)) as [->|]; [|by right].
    by destruct Hnin.
Qed.

Lemma elem_of_neighbours p q : q ∈ neighbours p ↔ adjacent p q.
Proof.
  destruct p as [r c], q as [r' c']. unfold neighbours, adjacent. simpl.
  rewrite !elem_of_cons, elem_of_nil. split.
  - intros [[= -> ->]|[[= -> ->]|[[= -> ->]|[[= -> ->]|[]]]]]; lia.
  - intros [[-> Habs]|[-> Habs]].
    + destruct (decide (c' = c + 1)) as [->|]; [tauto|].
      assert (c' = c - 1) as -> by lia. tauto.
    + destruct (decide (r' = r - 1)) as [->|]; [tauto|].
      assert (r' = r + 1) as -> by lia. tauto.
Qed.

Lemma elem_of_lettersAround p ch blocked el :
  el ∈ filter (not_blocked blocked) (omap (hit puzzle ch) (neighbours p)) ↔
  ∃ q, adjacent p q ∧ char_at puzzle q = Some ch ∧ (q ∉ blocked) ∧
       el = LetterObj (Some ch) q.1 q.2.
Proof.
  rewrite list_elem_of_filter, list_elem_of_omap, not_blocked_iff. split.
  - intros (Hnb & q & Hq & Hhit). unfold hit in Hhit.
    destruct (decide (char_at puzzle q = Some ch)) as [Hch|]; [|done].
    injection Hhit as <-. exists q. rewrite <- elem_of_neighbours.
    destruct q as [r c]. done.
  - intros (q & Hadj & Hch & Hnb & ->). split.
    + by destruct q as [r c].
    + exists q. rewrite elem_of_neighbours. split; [done|].
      unfold hit. by rewrite decide_True.
Qed.

Lemma extends_nil blocked p : extends puzzle blocked p [].
Proof.
  exists []. split; [constructor|]. split; [constructor|].
  split; [|constructor]. intros q Hq. by apply elem_of_nil in Hq.
Qed.

(** One step of the search: the path extends by [ch :: rest] exactly
    when some free neighbour holds [ch] and the longer path extends by
    [rest]. *)
Lemma extends_cons blocked p ch rest :
  extends puzzle blocked p (ch :: rest) ↔
  ∃ q, adjacent p q ∧ char_at puzzle q = Some ch ∧ (q ∉ blocked) ∧
       extends puzzle (js_push blocked q) q rest.
Proof.
  unfold extends, spells, js_push. split.
  - intros (path & Hchain & Hnd & Hfree & Hsp).
    inversion Hsp as [|q ch' path' rest' Hq Hsp']; subst.
    inversion Hchain as [| |p' q' path'' Hadj Hchain']; subst.
    apply NoDup_cons in Hnd as [Hq' Hnd].
    exists q. split; [done|]. split; [done|]. split; [apply Hfree; left|].
    exists path'. split; [done|]. split; [done|]. split; [|done].
    intros q' Hq'' [Hin|Hin%list_elem_of_singleton]%elem_of_app.
    + apply (Hfree q'); [by right|done].
    + by subst.
  - intros (q & Hadj & Hq & Hfree & path & Hchain & Hnd & Hfree' & Hsp).
    exists (q :: path). split; [by constructor|]. split.
    + apply NoDup_cons. split; [|done]. intros Hin.
      apply (Hfree' q Hin). apply elem_of_app. right. by apply list_elem_of_singleton.
    + split; [|by constructor].
      intros q' [->|Hin]%elem_of_cons; [done|].
      intros Hb. apply (Hfree' q' Hin). apply elem_of_app. by left.
Qed.

(** The loop tries the candidates in turn, each from the same
    [blockedCells]. *)
Lemma snakeFind_loop_spec call rest (ls : list (letterObj char)) blocked :
  searches puzzle call rest →
  (∀ el, el ∈ ls → is_Some (js_index puzzle (row el))) →
  ∃ found blocked', snakeFind_loop call ls blocked = Ok (found, blocked') ∧
    (found = false → blocked' = blocked) ∧
    (found = true ↔
     ∃ el, el ∈ ls ∧
           extends puzzle (js_push blocked (position el)) (position el) rest).
Proof.
  intros Hcall. induction ls as [|el ls IH]; intros Hrows; simpl.
  - exists false, blocked. split; [done|]. split; [done|]. split; [done|].
    intros (el & Hel & _). by apply elem_of_nil in Hel.
  - destruct (Hcall (row el) (coll el) (js_push blocked (row el, coll el)))
      as (found & blocked' & Hrun & Hkeep & Hiff); [apply Hrows; left|].
    rewrite Hrun. simpl. destruct found.
    + exists true, blocked'. split; [done|]. split; [done|]. split; [|done].
      intros _. exists el. split; [left|]. by apply Hiff.
    + rewrite (Hkeep eq_refl), js_pop_push.
      destruct IH as (found & blocked'' & Hloop & Hkeep' & Hiff').
      { intros el' Hel'. apply Hrows. by right. }
      exists found, blocked''. split; [done|]. split; [done|].
      rewrite Hiff'. split.
      * intros (el' & Hel' & Hext). exists el'. split; [by right|done].
      * intros (el' & [->|Hel']%elem_of_cons & Hext); [|by exists el'].
        apply Hiff in Hext. discriminate.
Qed.

Lemma snakeFind_spec rest : searches puzzle (snakeFind puzzle rest) rest.
Proof.
  induction rest as [|ch rest IH]; intros row coll blocked Hrow; simpl.
  - exists true, blocked. split; [done|]. split; [done|].
    split; [|done]. intros _. apply extends_nil.
  - rewrite (lettersAround_eq puzzle row coll ch blocked Hrow). simpl.
    destruct (snakeFind_loop_spec _ rest
              (filter (not_blocked blocked)
                 (omap (hit puzzle ch) (neighbours (row, coll)))) blocked IH)
    as (found & blocked' & Hloop & Hkeep & Hiff).
    { intros el (q & _ & Hq & _ & ->)%elem_of_lettersAround. simpl.
      apply char_at_Some in Hq as (r & Hr & _). by exists r. }
    exists found, blocked'. split; [done|]. split; [done|].
    rewrite Hiff, extends_cons. split.
    + intros (el & (q & Hadj & Hq & Hfree & ->)%elem_of_lettersAround & Hext).
      exists q. destruct q as [r c]. done.
    + intros (q & Hadj & Hq & Hfree & Hext).
      exists (LetterObj (Some ch) q.1 q.2). split.
      * apply elem_of_lettersAround. by exists q.
      * by destruct q as [r c].
Qed.

(** *** The scan over the starting cells *)

Lemma scan_cell_spec (searchStr : list char) (row coll : Z) :
  is_Some (js_index puzzle row) →
  ∃ b, scan_cell puzzle searchStr row coll = Ok b ∧
    (b = true ↔
     ∃ ch rest, searchStr = ch :: rest ∧ char_at puzzle (row, coll) = Some ch ∧
                extends puzzle [(row, coll)] (row, coll) rest).
Proof.
  intros Hrow. unfold scan_cell. destruct Hrow as [r Hr].
  rewrite (puzzle_at_row _ _ _ r Hr). simpl.
  destruct searchStr as [|ch rest]; simpl.
  - rewrite strict_eq_None. exists false. split; [done|]. split; [done|].
    by intros (ch & rest & [=] & _).
  - destruct (strict_eq _ _) eqn:Heq.
    + apply strict_eq_Some in Heq.
      destruct (snakeFind_spec rest row coll [(row, coll)])
        as (found & blocked' & Hrun & _ & Hiff); [by exists r|].
      rewrite Hrun. simpl. exists found. split; [done|]. rewrite Hiff. split.
      * intros Hext. by exists ch, rest.
      * by intros (ch' & rest' & [= <- <-] & _ & Hext).
    + exists false. split; [done|]. split; [done|].
      intros (ch' & rest' & [= <- <-] & Hch & _).
      apply strict_eq_Some in Hch. congruence.
Qed.

Lemma scan_row_spec (searchStr : list char) (row : Z) :
  is_Some (js_index puzzle row) →
  ∃ b, scan_row puzzle searchStr row = Ok b ∧
    (b = true ↔
     ∃ coll ch rest, searchStr = ch :: rest ∧
                     char_at puzzle (row, coll) = Some ch ∧
                     extends puzzle [(row, coll)] (row, coll) rest).
Proof.
  intros Hrow. unfold scan_row. destruct Hrow as [r Hr]. rewrite Hr.
  destruct (for_return_Ok (scan_cell puzzle searchStr row)
              (seqZ 0 (Z.of_nat (length r)))) as (b & Hb & Hiff).
  { intros coll _. destruct (scan_cell_spec searchStr row coll) as (hit' & Hhit & _);
      [by exists r|]. by exists hit'. }
  exists b. split; [done|]. rewrite Hiff. split.
  - intros (coll & _ & Hcell).
    destruct (scan_cell_spec searchStr row coll) as (b' & Hb' & Hiff');
      [by exists r|].
    exists coll. apply Hiff'. congruence.
  - intros (coll & ch & rest & -> & Hch & Hext). exists coll. split.
    + apply elem_of_seqZ.
      assert (is_Some (js_index r coll)) as Hcoll.
      { unfold char_at in Hch. simpl in Hch. rewrite Hr in Hch. by exists ch. }
      apply js_index_is_Some in Hcoll. lia.
    + destruct (scan_cell_spec (ch :: rest) row coll) as (b' & Hb' & Hiff');
        [by exists r|].
      rewrite Hb'. f_equal. apply Hiff'. by exists ch, rest.
Qed.

Lemma scan_spec (searchStr : list char) :
  ∃ b, scan puzzle searchStr = Ok b ∧
    (b = true ↔
     ∃ p ch rest, searchStr = ch :: rest ∧ char_at puzzle p = Some ch ∧
                  extends puzzle [p] p rest).
Proof.
  unfold scan.
  assert (∀ row, row ∈ seqZ 0 (Z.of_nat (length puzzle)) →
                 is_Some (js_index puzzle row)) as Hrows.
  { intros row Hrow%elem_of_seqZ. apply js_index_is_Some. lia. }
  destruct (for_return_Ok (scan_row puzzle searchStr)
              (seqZ 0 (Z.of_nat (length puzzle)))) as (b & Hb & Hiff).
  { intros row Hrow. destruct (scan_row_spec searchStr row) as (hit' & Hhit & _);
      [by apply Hrows|]. by exists hit'. }
  exists b. split; [done|]. rewrite Hiff. split.
  - intros (row & Hrow & Hscan).
    destruct (scan_row_spec searchStr row) as (b' & Hb' & Hiff');
      [by apply Hrows|].
    destruct Hiff' as [Hfwd _].
    destruct Hfwd as (coll & Hfound); [congruence|]. by exists (row, coll).
  - intros ([row coll] & ch & rest & -> & Hch & Hext).
    assert (is_Some (js_index puzzle row)) as Hrow.
    { apply char_at_Some in Hch as (r & Hr & _). by exists r. }
    exists row. split.
    + apply elem_of_seqZ. apply js_index_is_Some in Hrow. lia.
    + destruct (scan_row_spec (ch :: rest) row) as (b' & Hb' & Hiff'); [done|].
      rewrite Hb'. f_equal. apply Hiff'. by exists coll, ch, rest.
Qed.

(** A non-empty word of a simple path: a starting cell and an
    extension that avoids it. *)
Lemma snake_word_cons ch rest :
  snake_word puzzle (ch :: rest) ↔
  ∃ p, char_at puzzle p = Some ch ∧ extends puzzle [p] p rest.
Proof.
  unfold snake_word, extends, spells. split.
  - intros (path & Hnd & Hchain & Hsp).
    inversion Hsp as [|p ch' path' rest' Hp Hsp']; subst.
    apply NoDup_cons in Hnd as [Hp' Hnd].
    exists p. split; [done|]. exists path'. split; [done|]. split; [done|].
    split; [|done]. intros q Hq ->%list_elem_of_singleton. done.
  - intros (p & Hp & path & Hchain & Hnd & Hfree & Hsp).
    exists (p :: path). split; [|split; [done|by constructor]].
    apply NoDup_cons. split; [|done]. intros Hin.
    apply (Hfree p Hin). by apply list_elem_of_singleton.
Qed.
End Search.

(** The function returns a boolean, and it returns [true] exactly for
    the non-empty words of simple paths. *)
Lemma findStringInSnakingPuzzle_spec {char : Type} `{EqDecision char}
    (puzzle : list (list char)) (searchStr : list char) :
  ∃ b, findStringInSnakingPuzzle puzzle searchStr = Ok b ∧
    (b = true ↔ searchStr ≠ [] ∧ snake_word puzzle searchStr).
Proof.
  unfold findStringInSnakingPuzzle.
  destruct (scan_spec puzzle searchStr) as (b & Hb & Hiff).
  exists b. split; [done|]. rewrite Hiff. split.
  - intros (p & ch & rest & -> & Hch & Hext). split; [done|].
    apply snake_word_cons. by exists p.
  - intros [Hne Hword]. destruct searchStr as [|ch rest]; [done|].
    apply snake_word_cons in Hword as (p & Hch & Hext). by exists p, ch, rest.
Qed.

(** ** The cells of the grid *)

Section Cells.
Context {char : Type} `{EqDecision char}.
Variable puzzle : list (list char).

Implicit Types (p q : cell) (ch : char) (path : list cell).

Lemma js_index_app_middle {A} (pre r : list A) (x : A) :
  js_index (pre ++ x :: r) (Z.of_nat (length pre)) = Some x.
Proof.
  apply js_index_Some. split; [lia|].
  rewrite Nat2Z.id. by apply list_lookup_middle.
Qed.

Lemma row_cells_chars (row : Z) (r pre : list char) :
  js_index puzzle row = Some (pre ++ r) →
  omap (char_at puzzle)
    ((λ coll, (row, coll)) <$>
       seqZ (Z.of_nat (length pre)) (Z.of_nat (length r))) = r.
Proof.
  revert pre. induction r as [|x r IH]; intros pre Hrow; [done|].
  rewrite seqZ_cons by (simpl; lia). simpl.
  unfold char_at at 1. simpl. rewrite Hrow, js_index_app_middle.
  f_equal. specialize (IH (pre ++ [x])).
  rewrite length_app in IH. simpl in IH.
  replace (Z.succ (Z.of_nat (length pre)))
    with (Z.of_nat (length pre + 1)) by lia.
  replace (Z.pred (Z.of_nat (S (length r))))
    with (Z.of_nat (length r)) by lia.
  apply IH. by rewrite <- app_assoc.
Qed.

Lemma cells_from_chars (rows : list (list char)) (row : Z) :
  (∀ i r, rows !! i = Some r → js_index puzzle (row + Z.of_nat i) = Some r) →
  omap (char_at puzzle) (cells_from row rows) = mjoin rows.
Proof.
  revert row. induction rows as [|r rows IH]; intros row Hrows; [done|].
  simpl. rewrite omap_app. f_equal.
  - apply (row_cells_chars row r []). simpl.
    specialize (Hrows 0%nat r eq_refl). by rewrite Z.add_0_r in Hrows.
  - apply IH. intros i r' Hi. specialize (Hrows (S i) r' Hi).
    by replace (row + 1 + Z.of_nat i) with (row + Z.of_nat (S i)) by lia.
Qed.

Lemma js_index_of_nat {A} (arr : list A) (i : nat) :
  js_index arr (Z.of_nat i) = arr !! i.
Proof.
  unfold js_index. rewrite decide_True by lia. by rewrite Nat2Z.id.
Qed.

(** The characters of the cells, in row-major order, are the rows put
    end to end. *)
Lemma all_cells_chars :
  omap (char_at puzzle) (all_cells puzzle) = mjoin puzzle.
Proof.
  apply cells_from_chars. intros i r Hi.
  by rewrite Z.add_0_l, js_index_of_nat.
Qed.

Lemma elem_of_cells_from (rows : list (list char)) (row : Z) i r coll :
  rows !! i = Some r → is_Some (js_index r coll) →
  (row + Z.of_nat i, coll) ∈ cells_from row rows.
Proof.
  revert row i. induction rows as [|r' rows IH]; intros row i Hi Hcoll; [done|].
  simpl. apply elem_of_app. destruct i as [|i]; simpl in Hi.
  - injection Hi as ->. left. unfold row_cells.
    apply list_elem_of_fmap. exists coll. split; [f_equal; lia|].
    apply elem_of_seqZ. apply js_index_is_Some in Hcoll. lia.
  - right. replace (row + Z.of_nat (S i)) with (row + 1 + Z.of_nat i) by lia.
    by apply IH.
Qed.

Lemma elem_of_all_cells p ch :
  char_at puzzle p = Some ch → p ∈ all_cells puzzle.
Proof.
  intros (r & [Hrow Hr]%js_index_Some & Hcoll)%char_at_Some.
  destruct p as [row coll]. simpl in *.
  replace row with (0 + Z.of_nat (Z.to_nat row)) by lia.
  apply (elem_of_cells_from puzzle 0 _ r); [done|by exists ch].
Qed.

Lemma spells_omap path (query : list char) :
  spells puzzle path query → omap (char_at puzzle) path = query.
Proof.
  induction 1 as [|p ch path query Hp _ IH]; [done|].
  simpl. rewrite Hp. by f_equal.
Qed.

(** The word of a simple path uses every character at most as often as
    the grid holds it. *)
Lemma snake_word_submseteq (query : list char) :
  snake_word puzzle query → query ⊆+ mjoin puzzle.
Proof.
  intros (path & Hnd & _ & Hsp).
  assert (path ⊆+ all_cells puzzle) as Hsub.
  { apply NoDup_submseteq; [done|]. intros p Hp.
    destruct (proj1 (list_elem_of_lookup path p) Hp) as [i Hi].
    destruct (Forall2_lookup_l _ _ _ _ _ Hsp Hi) as (ch & _ & Hch).
    by apply (elem_of_all_cells p ch). }
  apply submseteq_Permutation in Hsub as [k Hk].
  apply (omap_Permutation (char_at puzzle)) in Hk.
  rewrite all_cells_chars, omap_app, (spells_omap _ _ Hsp) in Hk.
  rewrite Hk. by apply submseteq_inserts_r.
Qed.

End Cells.

(** ** Reversed paths and one-cell paths *)

Section Words.
Context {char : Type} `{EqDecision char}.
Variable puzzle : list (list char).

Implicit Types (p q : cell) (ch : char) (path : list cell).






Lemma snake_word_singleton ch :
  snake_word puzzle [ch] ↔ ch ∈ mjoin puzzle.
Proof.
  split.
  - intros Hsub%snake_word_submseteq.
    apply (elem_of_submseteq [ch]); [left|done].
  - rewrite <- all_cells_chars. intros (p & _ & Hp)%list_elem_of_omap.
    exists [p]. split; [apply NoDup_singleton|]. split; [constructor|].
    by repeat constructor.
Qed.
End Words.

(** ** The evaluation relation has one outcome, the computed one *)

Lemma for_runs_deterministic {A} (body : A → result bool → Prop) (l : list A) :
  (∀ i o1 o2, body i o1 → body i o2 → o1 = o2) →
  ∀ o1 o2, for_runs body l o1 → for_runs body l o2 → o1 = o2.
Proof.
  intros Hbody o1 o2 Hrun1. revert o2.
  induction Hrun1 as [|i l Hi|i l out Hi Hrun1 IH|i l Hi];
    intros o2 Hrun2; inversion Hrun2 as [|? ? Hi'|? ? ? Hi' Hrun2'|? ? Hi']; subst;
    try done; try (by specialize (Hbody _ _ _ Hi Hi')).
  by apply IH.
Qed.

Lemma for_runs_for_return {A} (rel : A → result bool → Prop)
    (body : A → result bool) (l : list A) :
  (∀ i, rel i (body i)) → for_runs rel l (for_return body l).
Proof.
  intros Hbody. induction l as [|i l IH]; simpl; [constructor|].
  specialize (Hbody i). destruct (body i) as [[]|]; simpl.
  - by apply for_return_true.
  - by apply for_next.
  - by apply for_throw.
Qed.

Section Determinism.
Context {char : Type} `{EqDecision char}.
Variable puzzle : list (list char).

Implicit Types (searchStr rest : list char) (blocked : list cell).

Lemma loop_runs_deterministic rest :
  (∀ row coll blocked o1 o2,
     snakeFind_runs puzzle rest row coll blocked o1 →
     snakeFind_runs puzzle rest row coll blocked o2 → o1 = o2) →
  ∀ ls blocked o1 o2,
    loop_runs puzzle rest ls blocked o1 →
    loop_runs puzzle rest ls blocked o2 → o1 = o2.
Proof.
  intros Hcall ls. induction ls as [|el ls IH]; intros blocked o1 o2 Hrun1 Hrun2.
  - inversion Hrun1; inversion Hrun2; by subst.
  - inversion Hrun1 as [|? ? ? ? b1 Hc1|? ? ? ? b1 ? Hc1 Hl1|? ? ? ? Hc1]; subst;
      inversion Hrun2 as [|? ? ? ? b2 Hc2|? ? ? ? b2 ? Hc2 Hl2|? ? ? ? Hc2]; subst;
      specialize (Hcall _ _ _ _ _ Hc1 Hc2); try done.
    injection Hcall as <-. by apply (IH (js_pop b1)).
Qed.

Lemma snakeFind_runs_deterministic searchStr :
  ∀ row coll blocked o1 o2,
    snakeFind_runs puzzle searchStr row coll blocked o1 →
    snakeFind_runs puzzle searchStr row coll blocked o2 → o1 = o2.
Proof.
  induction searchStr as [|ch rest IH]; intros row coll blocked o1 o2 Hrun1 Hrun2.
  - inversion Hrun1; inversion Hrun2; by subst.
  - inversion Hrun1 as [|? ? ? ? ? Ha1|? ? ? ? ? ls1 ? Ha1 Hl1]; subst;
      inversion Hrun2 as [|? ? ? ? ? Ha2|? ? ? ? ? ls2 ? Ha2 Hl2]; subst;
      try done; try congruence.
    assert (ls1 = ls2) as <- by congruence.
    by apply (loop_runs_deterministic rest IH ls1 blocked).
Qed.

Lemma cell_runs_deterministic searchStr row coll o1 o2 :
  cell_runs puzzle searchStr row coll o1 →
  cell_runs puzzle searchStr row coll o2 → o1 = o2.
Proof.
  intros Hrun1 Hrun2.
  inversion Hrun1 as [Hp1|x1 Hp1 He1|x1 f1 b1 Hp1 He1 Hs1|x1 Hp1 He1 Hs1]; subst;
    inversion Hrun2 as [Hp2|x2 Hp2 He2|x2 f2 b2 Hp2 He2 Hs2|x2 Hp2 He2 Hs2]; subst;
    try done; try congruence.
  - by injection (snakeFind_runs_deterministic _ _ _ _ _ _ Hs1 Hs2) as <- <-.
  - by specialize (snakeFind_runs_deterministic _ _ _ _ _ _ Hs1 Hs2).
  - by specialize (snakeFind_runs_deterministic _ _ _ _ _ _ Hs1 Hs2).
Qed.

Lemma row_runs_deterministic searchStr row o1 o2 :
  row_runs puzzle searchStr row o1 →
  row_runs puzzle searchStr row o2 → o1 = o2.
Proof.
  intros Hrun1 Hrun2.
  inversion Hrun1 as [Hr1|r1 ? Hr1 Hf1]; subst;
    inversion Hrun2 as [Hr2|r2 ? Hr2 Hf2]; subst; try done; try congruence.
  assert (r1 = r2) as <- by congruence.
  eapply for_runs_deterministic; [|done..].
  intros coll. apply cell_runs_deterministic.
Qed.

(** The functions compute the outcome of the relation. *)
Lemma snakeFind_runs_snakeFind searchStr :
  ∀ row coll blocked,
    snakeFind_runs puzzle searchStr row coll blocked
      (snakeFind puzzle searchStr row coll blocked).
Proof.
  induction searchStr as [|ch rest IH]; intros row coll blocked; simpl.
  - constructor.
  - destruct (lettersAround puzzle row coll (Some ch) blocked) as [ls|] eqn:Hls;
      simpl; [|by apply run_around_throw].
    apply (run_loop _ _ _ _ _ _ ls); [done|]. clear Hls.
    revert blocked. induction ls as [|el ls IHls]; intros blocked; simpl.
    + constructor.
    + specialize (IH (position el).1 (position el).2
                    (js_push blocked (position el))).
      destruct (snakeFind puzzle rest _ _ _) as [[[] blocked']|]; simpl.
      * by apply loop_return_true.
      * by apply (loop_next _ _ _ _ _ blocked').
      * by apply loop_throw.
Qed.

Lemma cell_runs_scan_cell searchStr row coll :
  cell_runs puzzle searchStr row coll (scan_cell puzzle searchStr row coll).
Proof.
  unfold scan_cell.
  destruct (puzzle_at puzzle row coll) as [x|] eqn:Hx; simpl;
    [|by apply cell_throw].
  destruct (strict_eq x (head searchStr)) eqn:Heq;
    [|by apply (cell_differs _ _ _ _ x)].
  pose proof (snakeFind_runs_snakeFind (tail searchStr) row coll [(row, coll)])
    as Hrun.
  destruct (snakeFind puzzle _ _ _ _) as [[found blocked']|]; simpl.
  - by apply (cell_search _ _ _ _ x found blocked').
  - by apply (cell_search_throw _ _ _ _ x).
Qed.

Lemma row_runs_scan_row searchStr row :
  row_runs puzzle searchStr row (scan_row puzzle searchStr row).
Proof.
  unfold scan_row. destruct (js_index puzzle row) as [r|] eqn:Hr.
  - apply (row_scan _ _ _ r); [done|].
    apply for_runs_for_return. apply cell_runs_scan_cell.
  - by apply row_throw.
Qed.
End Determinism.

Lemma findStringInSnakingPuzzle_runs_computed {char : Type} `{EqDecision char}
    (puzzle : list (list char)) (searchStr : list char) :
  findStringInSnakingPuzzle_runs puzzle searchStr
    (findStringInSnakingPuzzle puzzle searchStr).
Proof.
  apply for_runs_for_return. apply row_runs_scan_row.
Qed.


(** ** The search on a call stack *)

Lemma agrees_mono {A} (room room' : Prop) (within : completion A)
    (unbound : result A) :
  (room' → room) → agrees room within unbound → agrees room' within unbound.
Proof.
  intros Himpl [Hout Hroom]. split; [done|].
  intros Hr. by apply Hroom, Himpl.
Qed.

Lemma for_return_within_agrees {A} (room : Prop) (within : A → completion bool)
    (body : A → result bool) (l : list A) :
  (∀ i, i ∈ l → agrees room (within i) (body i)) →
  agrees room (for_return_within within l) (for_return body l).
Proof.
  induction l as [|i l IH]; intros Hbody; [by split; [left|]|].
  destruct (Hbody i) as [Hout Hroom]; [left|].
  destruct IH as [Hout' Hroom']; [intros j Hj; apply Hbody; by right|].
  cbn [for_return_within for_return]. split.
  - destruct Hout as [-> | ->]; [|by right].
    destruct (body i) as [[|]|]; simpl; [by left|done|by left].
  - intros Hr. rewrite (Hroom Hr).
    destruct (body i) as [[|]|]; simpl; [done|by apply Hroom'|done].
Qed.

Lemma for_return_within_true {A} (within : A → completion bool) (l : list A) :
  for_return_within within l = Normal true →
  ∃ i, i ∈ l ∧ within i = Normal true.
Proof.
  induction l as [|i l IH]; [done|]. cbn [for_return_within].
  destruct (within i) as [[|]|e] eqn:Hi; simpl; [|intros Hl|done].
  - intros _. exists i. split; [left|done].
  - destruct (IH Hl) as (j & Hj & Hwithin). exists j. split; [by right|done].
Qed.

Section Frames.
Context {char : Type} `{EqDecision char}.
Variable puzzle : list (list char).
Variable helper_frames : nat.

Implicit Types (p q : cell) (ch : char) (blocked : list cell)
  (el : letterObj char) (rest : list char) (frames : nat).

(** Distinct cells of the grid are no more than its characters. *)
Lemma blocked_length blocked :
  NoDup blocked → (∀ q, q ∈ blocked → is_Some (char_at puzzle q)) →
  (length blocked ≤ length (mjoin puzzle))%nat.
Proof.
  intros Hnd Hcells.
  assert (blocked ⊆+ all_cells puzzle) as Hsub.
  { apply NoDup_submseteq; [done|]. intros q [ch Hch]%Hcells.
    by apply (elem_of_all_cells puzzle q ch). }
  apply submseteq_Permutation in Hsub as [k Hk].
  apply (omap_Permutation (char_at puzzle)) in Hk.
  rewrite all_cells_chars, omap_app in Hk.
  apply Permutation_length in Hk. rewrite length_app in Hk.
  assert (length (omap (char_at puzzle) blocked) = length blocked) as Hlen.
  { clear -Hcells. induction blocked as [|q blocked IH]; [done|].
    simpl. destruct (Hcells q) as [ch ->]; [left|]. simpl. f_equal.
    apply IH. intros q' Hq'. apply Hcells. by right. }
  lia.
Qed.

(** The loop, when every call that it makes agrees. *)
Lemma snakeFind_loop_within_agrees (room : Prop)
    (within : Z → Z → list cell → completion (bool * list cell))
    (call : Z → Z → list cell → result (bool * list cell))
    rest (ls : list (letterObj char)) blocked :
  searches puzzle call rest →
  (∀ el, el ∈ ls → is_Some (js_index puzzle (row el))) →
  (∀ el, el ∈ ls →
     agrees room
       (within (row el) (coll el) (js_push blocked (position el)))
       (call (row el) (coll el) (js_push blocked (position el)))) →
  agrees room (snakeFind_loop_within within ls blocked)
    (snakeFind_loop call ls blocked).
Proof.
  intros Hcall. induction ls as [|el ls IH]; intros Hrows Hcalls;
    [by split; [left|]|].
  destruct (Hcall (row el) (coll el) (js_push blocked (position el)))
    as (found & blocked' & Hrun & Hkeep & _); [apply Hrows; left|].
  destruct (Hcalls el) as [Hout Hroom]; [left|].
  destruct IH as [Hout' Hroom'].
  { intros el' Hel'. apply Hrows. by right. }
  { intros el' Hel'. apply Hcalls. by right. }
  cbn [snakeFind_loop_within snakeFind_loop]. unfold position in *.
  cbn [fst snd] in *.
  rewrite Hrun in *. cbn [completion_of] in *.
  assert (found = false → js_pop blocked' = blocked) as Hpop.
  { intros ->. rewrite (Hkeep eq_refl). apply js_pop_push. }
  split.
  - destruct Hout as [-> | ->]; [|by right].
    unfold mbind, completion_bind, result_bind.
    destruct found; [by left|]. by rewrite (Hpop eq_refl).
  - intros Hr. rewrite (Hroom Hr).
    unfold mbind, completion_bind, result_bind.
    destruct found; [done|]. rewrite (Hpop eq_refl). by apply Hroom'.
Qed.

(** A call of [snakeFind] from a cell of a stored row: there is room
    when the stack holds, above the frames of the helpers, a frame for
    every character that is left and one more, or a frame for every
    cell of the grid that is not blocked and one more. *)
Lemma snakeFind_within_agrees rest :
  ∀ frames row coll blocked,
    is_Some (js_index puzzle row) →
    agrees (NoDup blocked ∧ (∀ q, q ∈ blocked → is_Some (char_at puzzle q)) ∧
            (length rest + helper_frames < frames ∨
             length (mjoin puzzle) + helper_frames <
             frames + length blocked)%nat)
      (snakeFind_within puzzle helper_frames frames rest row coll blocked)
      (snakeFind puzzle rest row coll blocked).
Proof.
  induction rest as [|ch rest IH]; intros frames row coll blocked Hrow.
  - destruct frames as [|frames]; [|by split; [left|]].
    split; [by right|]. intros (Hnd & Hcells & Hframes).
    pose proof (blocked_length blocked Hnd Hcells). simpl in Hframes. lia.
  - destruct frames as [|frames].
    { split; [by right|]. intros (Hnd & Hcells & Hframes).
      pose proof (blocked_length blocked Hnd Hcells). simpl in Hframes. lia. }
    cbn [snakeFind_within snakeFind].
    destruct (decide (frames < helper_frames)%nat) as [Hshort|Hlong].
    { split; [by right|]. intros (Hnd & Hcells & Hframes).
      pose proof (blocked_length blocked Hnd Hcells). simpl in Hframes. lia. }
    rewrite (lettersAround_eq puzzle row coll ch blocked Hrow).
    cbn [completion_of mbind completion_bind result_bind].
    apply (snakeFind_loop_within_agrees _ _ _ rest); [apply snakeFind_spec|..].
    + intros el (q & _ & Hq & _ & ->)%elem_of_lettersAround. simpl.
      apply char_at_Some in Hq as (r & Hr & _). by exists r.
    + intros el (q & _ & Hq & Hfree & ->)%elem_of_lettersAround.
      unfold position. simpl.
      replace (q.1, q.2) with q by by destruct q.
      eapply agrees_mono; [|apply IH].
      * intros (Hnd & Hcells & Hframes). unfold js_push. split; [|split].
        -- apply NoDup_app. split; [done|]. split; [|apply NoDup_singleton].
           by intros q' Hq' ->%list_elem_of_singleton.
        -- intros q' [Hq'|Hq']%elem_of_app; [by apply Hcells|].
           apply list_elem_of_singleton in Hq' as ->. by exists ch.
        -- rewrite length_app. simpl in *. lia.
      * apply char_at_Some in Hq as (r & Hr & _). by exists r.
Qed.

(** A call that succeeds has called itself once for every character. *)
Lemma snakeFind_loop_within_true
    (within : Z → Z → list cell → completion (bool * list cell))
    (ls : list (letterObj char)) blocked blocked' :
  snakeFind_loop_within within ls blocked = Normal (true, blocked') →
  ∃ row coll blocked0, within row coll blocked0 = Normal (true, blocked').
Proof.
  revert blocked. induction ls as [|el ls IH]; intros blocked; [done|].
  cbn [snakeFind_loop_within].
  destruct (within _ _ _) as [[[|] blocked1]|e] eqn:Hcall;
    unfold mbind, completion_bind; [|apply IH|done].
  intros [= <-]. by eexists _, _, _.
Qed.

Lemma snakeFind_within_true frames :
  ∀ rest row coll blocked blocked',
    snakeFind_within puzzle helper_frames frames rest row coll blocked =
      Normal (true, blocked') →
    (length rest < frames)%nat.
Proof.
  induction frames as [|frames IH]; intros rest row coll blocked blocked';
    [done|].
  destruct rest as [|ch rest]; [simpl; lia|]. cbn [snakeFind_within].
  destruct (decide (frames < helper_frames)%nat); [done|].
  destruct (completion_of _) as [ls|e]; unfold mbind at 1, completion_bind;
    [|done].
  intros (row' & coll' & blocked0 & Hcall)%snakeFind_loop_within_true.
  apply IH in Hcall. simpl. lia.
Qed.

Lemma scan_cell_within_agrees frames (searchStr : list char) (row coll : Z) :
  is_Some (js_index puzzle row) →
  agrees (length searchStr + helper_frames ≤ frames ∨
          length (mjoin puzzle) + helper_frames ≤ frames)%nat
    (scan_cell_within puzzle helper_frames frames searchStr row coll)
    (scan_cell puzzle searchStr row coll).
Proof.
  intros [r Hr]. unfold scan_cell_within, scan_cell.
  rewrite (puzzle_at_row _ _ _ r Hr). cbn [completion_of].
  unfold mbind at 1 3, completion_bind, result_bind.
  destruct searchStr as [|ch rest]; cbn [head tail].
  { rewrite strict_eq_None. by split; [left|]. }
  destruct (strict_eq _ _) eqn:Heq; [|by split; [left|]].
  apply strict_eq_Some in Heq.
  destruct (snakeFind_within_agrees rest frames row coll [(row, coll)])
    as [Hout Hroom]; [by exists r|].
  split.
  - destruct Hout as [-> | ->]; [|by right]. left.
    by destruct (snakeFind puzzle rest row coll [(row, coll)]) as [[? ?]|].
  - intros Hframes. rewrite Hroom.
    + by destruct (snakeFind puzzle rest row coll [(row, coll)]) as [[? ?]|].
    + split; [apply NoDup_singleton|]. split.
      * intros q ->%list_elem_of_singleton. by exists ch.
      * simpl in *. lia.
Qed.

Lemma scan_cell_within_true frames (searchStr : list char) (row coll : Z) :
  scan_cell_within puzzle helper_frames frames searchStr row coll = Normal true →
  (length searchStr ≤ frames)%nat.
Proof.
  unfold scan_cell_within.
  destruct (completion_of _) as [x|e]; unfold mbind at 1, completion_bind;
    [|done].
  destruct (strict_eq x (head searchStr)) eqn:Heq; [|done].
  destruct searchStr as [|ch rest];
    [simpl in Heq; by rewrite strict_eq_None in Heq|].
  cbn [tail].
  destruct (snakeFind_within _ _ _ _ _ _) as [[found blocked']|e] eqn:Hcall;
    unfold mbind, completion_bind; [|done].
  intros [= ->]. apply snakeFind_within_true in Hcall. simpl. lia.
Qed.

Lemma scan_within_agrees frames (searchStr : list char) :
  agrees (length searchStr + helper_frames ≤ frames ∨
          length (mjoin puzzle) + helper_frames ≤ frames)%nat
    (scan_within puzzle helper_frames frames searchStr) (scan puzzle searchStr).
Proof.
  apply for_return_within_agrees. intros row Hrow%elem_of_seqZ.
  assert (is_Some (js_index puzzle row)) as [r Hr]
    by (apply js_index_is_Some; lia).
  unfold scan_row_within, scan_row. rewrite Hr.
  apply for_return_within_agrees. intros coll _.
  apply scan_cell_within_agrees. by exists r.
Qed.

Lemma scan_within_true frames (searchStr : list char) :
  scan_within puzzle helper_frames frames searchStr = Normal true →
  (length searchStr ≤ frames)%nat.
Proof.
  intros (row & _ & Hrow)%for_return_within_true.
  unfold scan_row_within in Hrow. destruct (js_index puzzle row); [|done].
  apply for_return_within_true in Hrow as (coll & _ & Hcell).
  by apply (scan_cell_within_true frames searchStr row coll).
Qed.
End Frames.

(** What the call does on a stack with room for [frames] calls of
    [snakeFind]: it ends with the boolean computed without a bound on
    the stack or with a [RangeError]; with the boolean when the stack
    has, above the frames of the helpers, a frame for every character of
    the query or for every character of the grid; and with a
    [RangeError] when the query is found and has more characters than
    the stack has frames. *)
Lemma findStringInSnakingPuzzle_within_spec {char : Type} `{EqDecision char}
    (frames helper_frames : nat) (puzzle : list (list char))
    (searchStr : list char) :
  ∃ b, findStringInSnakingPuzzle puzzle searchStr = Ok b ∧
    (findStringInSnakingPuzzle_within frames helper_frames puzzle searchStr =
       Normal b ∨
     findStringInSnakingPuzzle_within frames helper_frames puzzle searchStr =
       Throw JsRangeError) ∧
    ((length searchStr + helper_frames ≤ frames ∨
      length (mjoin puzzle) + helper_frames ≤ frames)%nat →
     findStringInSnakingPuzzle_within frames helper_frames puzzle searchStr =
       Normal b) ∧
    (b = true → (frames < length searchStr)%nat →
     findStringInSnakingPuzzle_within frames helper_frames puzzle searchStr =
       Throw JsRangeError).
Proof.
  destruct (findStringInSnakingPuzzle_spec puzzle searchStr) as (b & Hb & _).
  exists b. split; [done|].
  destruct (scan_within_agrees puzzle helper_frames frames searchStr)
    as [Hout Hroom].
  unfold findStringInSnakingPuzzle_within, findStringInSnakingPuzzle in *.
  rewrite Hb in Hout, Hroom. cbn [completion_of] in *.
  split; [done|]. split; [done|].
  intros -> Hshort. destruct Hout as [Hfound|Hthrow]; [|done].
  apply scan_within_true in Hfound. lia.
Qed.

(** ** A row searched for itself *)

Section OneRow.
Context {char : Type} `{EqDecision char}.

Lemma chain_row (row : Z) (n : nat) :
  ∀ m : Z, chain ((λ coll, (row, coll)) <$> seqZ m (Z.of_nat n)).
Proof.
  induction n as [|n IH]; intros m; [constructor|].
  rewrite seqZ_cons by lia.
  replace (Z.pred (Z.of_nat (S n))) with (Z.of_nat n) by lia.
  specialize (IH (Z.succ m)). destruct n as [|n]; [constructor|].
  rewrite seqZ_cons in * by lia. cbn [fmap list_fmap] in *.
  constructor; [|done]. left. simpl. lia.
Qed.

Lemma spells_row (puzzle : list (list char)) (row : Z) (r : list char) :
  ∀ pre : list char,
    js_index puzzle row = Some (pre ++ r) →
    spells puzzle
      ((λ coll, (row, coll)) <$>
         seqZ (Z.of_nat (length pre)) (Z.of_nat (length r))) r.
Proof.
  induction r as [|x r IH]; intros pre Hrow; [constructor|].
  rewrite seqZ_cons by (simpl; lia). cbn [fmap list_fmap]. constructor.
  - unfold char_at. simpl. by rewrite Hrow, js_index_app_middle.
  - specialize (IH (pre ++ [x])).
    rewrite length_app in IH. simpl in IH.
    replace (Z.succ (Z.of_nat (length pre)))
      with (Z.of_nat (length pre + 1)) by lia.
    replace (Z.pred (Z.of_nat (length (x :: r))))
      with (Z.of_nat (length r)) by (simpl; lia).
    apply IH. by rewrite <- app_assoc.
Qed.

(** The cells of a row, from left to right, are a simple path with the
    characters of the row. *)
Lemma snake_word_row (r : list char) : snake_word [r] r.
Proof.
  exists ((λ coll, (0, coll)) <$> seqZ 0 (Z.of_nat (length r))).
  split; [|split].
  - apply NoDup_fmap_2_strong; [|apply NoDup_seqZ]. by intros x y _ _ [= ->].
  - apply chain_row.
  - by apply (spells_row [r] 0 r []).
Qed.
End OneRow.

(** ** The specification *)

Lemma well_formed_example : well_formed example_puzzle.
Proof. split; [done|]. exists 7%nat. by repeat constructor. Defined.

Lemma well_formed_single : well_formed single_puzzle.
Proof. split; [done|]. exists 1%nat. by repeat constructor. Defined.





(** C2, as stated, fails: on the one-cell grid the empty query does not
    return [true]. *)
Lemma empty_query_not_true :
  well_formed single_puzzle ∧
  findStringInSnakingPuzzle single_puzzle (str "") ≠ Ok true.
Proof. split; [apply well_formed_single|]. discriminate. Qed.

(** C2, amended: for every grid, the empty query returns [false]: the
    scan compares every cell with [charAt( 0 )], the empty string, which
    no array element equals, so that [snakeFind] and its test of an
    empty remainder are not reached. *)
Theorem empty_query_false {char : Type} `{EqDecision char}
    (puzzle : list (list char)) :
  findStringInSnakingPuzzle puzzle [] = Ok false ∧
  ∀ x : option char, strict_eq x (head []) = false.
Proof.
  split; [|apply strict_eq_None].
  destruct (findStringInSnakingPuzzle_spec puzzle []) as (b & -> & Hiff).
  f_equal. destruct b; [|done]. by destruct Hiff as [[? _] _].
Qed.

(** C3: on the 5×7 example grid the queries ANGULAR, ARRAY and RED are
    found, FUNCTION and NULL are not. *)
Theorem example_queries :
  findStringInSnakingPuzzle example_puzzle (str "ANGULAR") = Ok true ∧
  findStringInSnakingPuzzle example_puzzle (str "ARRAY") = Ok true ∧
  findStringInSnakingPuzzle example_puzzle (str "RED") = Ok true ∧
  findStringInSnakingPuzzle example_puzzle (str "FUNCTION") = Ok false ∧
  findStringInSnakingPuzzle example_puzzle (str "NULL") = Ok false.
Proof. repeat split; vm_compute; reflexivity. Qed.

(** The snake must not cross itself: in the row AB the characters of ABA
    can only be traced by going back to the first cell. *)
Example no_self_crossing :
  findStringInSnakingPuzzle [str "AB"] (str "ABA") = Ok false.
Proof. reflexivity. Qed.

Lemma well_formed_long_row : well_formed [long_row].
Proof.
  split; [done|]. exists (length long_row). constructor; [done|constructor].
Defined.

Lemma long_row_found : findStringInSnakingPuzzle [long_row] long_row = Ok true.
Proof.
  destruct (findStringInSnakingPuzzle_spec [long_row] long_row)
    as (b & -> & Hiff).
  f_equal. apply Hiff. split; [|apply snake_word_row].
  intros Hnil%(f_equal length). unfold long_row in Hnil.
  rewrite length_replicate in Hnil. simpl in Hnil. lia.
Qed.

(** C4, as stated, fails: the row of eight thousand letters A is a
    non-empty rectangular grid, and the call that searches it for the
    eight thousand letters throws a [RangeError] on every stack with
    room for fewer than eight thousand calls of [snakeFind], one inside
    the other. *)
Lemma long_row_exceeds_stack :
  well_formed [long_row] ∧
  ∀ frames helper_frames : nat, (frames < length long_row)%nat →
    findStringInSnakingPuzzle_within frames helper_frames [long_row] long_row =
    Throw JsRangeError.
Proof.
  split; [apply well_formed_long_row|]. intros frames helper_frames Hframes.
  destruct (findStringInSnakingPuzzle_within_spec frames helper_frames
              [long_row] long_row) as (b & Hb & _ & _ & Hthrow).
  rewrite long_row_found in Hb. injection Hb as <-. by apply Hthrow.
Qed.

(** C4, amended: for every non-empty rectangular grid and every query,
    on a stack with room for [frames] calls of [snakeFind], the call
    ends, and it ends with a boolean or with a [RangeError], never with
    a [TypeError].  The boolean is the one computed without a bound on
    the stack, [false] when no simple path has the characters of the
    query.  The call returns it when the stack has, above the frames of
    the helpers, a frame for every character of the query, and also
    when it has one for every character of the grid; it throws the
    [RangeError] when the query is found and has more characters than
    the stack has frames. *)
Theorem search_outcome_on_stack {char : Type} `{EqDecision char}
    (frames helper_frames : nat) (puzzle : list (list char))
    (searchStr : list char) :
  well_formed puzzle →
  ∃ b, findStringInSnakingPuzzle puzzle searchStr = Ok b ∧
       (¬ snake_word puzzle searchStr → b = false) ∧
       (findStringInSnakingPuzzle_within frames helper_frames puzzle searchStr =
          Normal b ∨
        findStringInSnakingPuzzle_within frames helper_frames puzzle searchStr =
          Throw JsRangeError) ∧
       ((length searchStr + helper_frames ≤ frames ∨
         length (mjoin puzzle) + helper_frames ≤ frames)%nat →
        findStringInSnakingPuzzle_within frames helper_frames puzzle searchStr =
          Normal b) ∧
       (b = true → (frames < length searchStr)%nat →
        findStringInSnakingPuzzle_within frames helper_frames puzzle searchStr =
          Throw JsRangeError).
Proof.
  intros _.
  destruct (findStringInSnakingPuzzle_within_spec frames helper_frames
              puzzle searchStr) as (b & Hb & Hout & Hroom & Hthrow).
  exists b. split; [done|]. split; [|done].
  destruct (findStringInSnakingPuzzle_spec puzzle searchStr) as (b' & Hb' & Hiff).
  rewrite Hb in Hb'. injection Hb' as <-.
  intros Hnone. destruct b; [|done].
  destruct Hiff as [[_ Hword] _]; [done|]. by destruct Hnone.
Qed.

Lemma search_outcome_on_stack_witness :
  well_formed example_puzzle ∧
  ∃ b, findStringInSnakingPuzzle example_puzzle (str "NULL") = Ok b ∧
       (¬ snake_word example_puzzle (str "NULL") → b = false) ∧
       (findStringInSnakingPuzzle_within 7 3 example_puzzle (str "NULL") =
          Normal b ∨
        findStringInSnakingPuzzle_within 7 3 example_puzzle (str "NULL") =
          Throw JsRangeError) ∧
       ((length (str "NULL") + 3 ≤ 7 ∨
         length (mjoin example_puzzle) + 3 ≤ 7)%nat →
        findStringInSnakingPuzzle_within 7 3 example_puzzle (str "NULL") =
          Normal b) ∧
       (b = true → (7 < length (str "NULL"))%nat →
        findStringInSnakingPuzzle_within 7 3 example_puzzle (str "NULL") =
          Throw JsRangeError).
Proof.
  split; [apply well_formed_example|].
  apply (search_outcome_on_stack 7 3 example_puzzle (str "NULL")).
  apply well_formed_example.
Defined.

Lemma rectangular_example : rectangular example_puzzle 7.
Proof. by repeat constructor. Defined.






(** C6: for every rectangular grid, a query of one character is found
    when that character is one of the grid, and is not found
    otherwise. *)
Theorem single_character_query {char : Type} `{EqDecision char}
    (puzzle : list (list char)) (columnCount : nat) (ch : char) :
  rectangular puzzle columnCount →
  findStringInSnakingPuzzle puzzle [ch] =
  Ok (bool_decide (ch ∈ mjoin puzzle)).
Proof.
  intros _.
  destruct (findStringInSnakingPuzzle_spec puzzle [ch]) as (b & -> & Hiff).
  f_equal. rewrite snake_word_singleton in Hiff. destruct b.
  - symmetry. apply bool_decide_eq_true. by apply Hiff.
  - symmetry. apply bool_decide_eq_false. intros Hin.
    destruct Hiff as [_ Hback].
    assert ([ch] ≠ []) as Hne by done.
    specialize (Hback (conj Hne Hin)). discriminate.
Qed.

Lemma single_character_query_witness :
  rectangular example_puzzle 7 ∧
  findStringInSnakingPuzzle example_puzzle (str "G") = Ok true ∧
  findStringInSnakingPuzzle example_puzzle (str "Z") = Ok false.
Proof.
  split; [apply rectangular_example|]. split.
  - rewrite (single_character_query example_puzzle 7 "G"%char rectangular_example).
    reflexivity.
  - rewrite (single_character_query example_puzzle 7 "Z"%char rectangular_example).
    reflexivity.
Defined.



(** A call has one outcome. *)
Lemma findStringInSnakingPuzzle_runs_deterministic {char : Type}
    `{EqDecision char} (puzzle : list (list char)) (searchStr : list char)
    (o1 o2 : result bool) :
  findStringInSnakingPuzzle_runs puzzle searchStr o1 →
  findStringInSnakingPuzzle_runs puzzle searchStr o2 → o1 = o2.
Proof.
  apply for_runs_deterministic. intros row. apply row_runs_deterministic.
Qed.

(** C8: two calls with the same grid and the same query end with the
    same boolean. *)
Theorem search_deterministic {char : Type} `{EqDecision char}
    (puzzle : list (list char)) (searchStr : list char)
    (first second : result bool) :
  findStringInSnakingPuzzle_runs puzzle searchStr first →
  findStringInSnakingPuzzle_runs puzzle searchStr second →
  ∃ b, first = Ok b ∧ second = Ok b.
Proof.
  intros Hfirst Hsecond.
  pose proof (findStringInSnakingPuzzle_runs_computed puzzle searchStr) as Hrun.
  destruct (findStringInSnakingPuzzle_spec puzzle searchStr) as (b & Hb & _).
  rewrite Hb in Hrun. exists b. split.
  - by apply (findStringInSnakingPuzzle_runs_deterministic puzzle searchStr).
  - by apply (findStringInSnakingPuzzle_runs_deterministic puzzle searchStr).
Qed.

Lemma search_deterministic_witness :
  findStringInSnakingPuzzle_runs example_puzzle (str "RED") (Ok true) ∧
  ∃ b, Ok true = Ok b ∧ Ok true = Ok b.
Proof.
  assert (findStringInSnakingPuzzle example_puzzle (str "RED") = Ok true)
    as Hfound by (vm_compute; reflexivity).
  pose proof (findStringInSnakingPuzzle_runs_computed example_puzzle (str "RED"))
    as Hrun.
  rewrite Hfound in Hrun.
  split; [done|].
  by apply (search_deterministic example_puzzle (str "RED")).
Defined.

(** C9, as stated, fails for the helpers that probe another row: in the
    grid ["AB", "C"] the cell below [(0, 1)] lies outside the second
    row, and [getBottomLetter] returns a letter object, not [null]. *)
Lemma bottom_probe_outside_row_not_null :
  ragged_puzzle ≠ [] ∧
  char_at ragged_puzzle (1, 1) = None ∧
  getBottomLetter ragged_puzzle 0 1 ≠ Ok None.
Proof. split; [done|]. split; [reflexivity|]. discriminate. Qed.

(** C9, amended: for every non-empty grid, whatever the lengths of its
    rows, and every query, on a stack with room for [frames] calls of
    [snakeFind], the call ends with a boolean or with a [RangeError],
    never with a [TypeError]; it returns the boolean when the stack has,
    above the frames of the helpers, a frame for every character of the
    query, and also when it has one for every character of the grid.
    Around a cell of a stored row, a helper whose probe falls outside
    the grid returns [null] when it probes the row of the cell (right
    and left) or an absent row (top and bottom), and otherwise a letter
    object whose letter is [undefined]; in both cases the first filter
    drops it. *)
Theorem ragged_grid_search_outcome {char : Type} `{EqDecision char}
    (frames helper_frames : nat) (puzzle : list (list char))
    (searchStr : list char) :
  puzzle ≠ [] →
  (∃ b, findStringInSnakingPuzzle puzzle searchStr = Ok b ∧
        (findStringInSnakingPuzzle_within frames helper_frames puzzle
           searchStr = Normal b ∨
         findStringInSnakingPuzzle_within frames helper_frames puzzle
           searchStr = Throw JsRangeError) ∧
        ((length searchStr + helper_frames ≤ frames ∨
          length (mjoin puzzle) + helper_frames ≤ frames)%nat →
         findStringInSnakingPuzzle_within frames helper_frames puzzle
           searchStr = Normal b)) ∧
  (∀ row coll out q,
     is_Some (js_index puzzle row) →
     (out, q) ∈ probes puzzle row coll →
     char_at puzzle q = None →
     ∃ o, out = Ok o ∧
          (o = None ↔ q.1 = row ∨ js_index puzzle q.1 = None) ∧
          (∀ el, o = Some el → el = LetterObj None q.1 q.2) ∧
          (∀ findLetter, has_letter findLetter o = None)).
Proof.
  intros _. split.
  { destruct (findStringInSnakingPuzzle_within_spec frames helper_frames
                puzzle searchStr) as (b & Hb & Hout & Hroom & _).
    by exists b. }
  intros row coll out q [r Hr] Hin Hq. unfold probes in Hin.
  rewrite !elem_of_cons, elem_of_nil in Hin.
  destruct Hin as [[= -> ->]|[[= -> ->]|[[= -> ->]|[[= -> ->]|[]]]]].
  - apply vertical_probe; [lia|done].
  - by apply (horizontal_probe puzzle row (coll + 1) r).
  - apply vertical_probe; [lia|done].
  - by apply (horizontal_probe puzzle row (coll - 1) r).
Qed.

Lemma ragged_grid_search_outcome_witness :
  ragged_puzzle ≠ [] ∧
  (∃ b, findStringInSnakingPuzzle ragged_puzzle (str "BC") = Ok b ∧
        (findStringInSnakingPuzzle_within 5 3 ragged_puzzle (str "BC") =
           Normal b ∨
         findStringInSnakingPuzzle_within 5 3 ragged_puzzle (str "BC") =
           Throw JsRangeError) ∧
        ((length (str "BC") + 3 ≤ 5 ∨
          length (mjoin ragged_puzzle) + 3 ≤ 5)%nat →
         findStringInSnakingPuzzle_within 5 3 ragged_puzzle (str "BC") =
           Normal b)) ∧
  (∃ o, getBottomLetter ragged_puzzle 0 1 = Ok o ∧
        (o = None ↔ 1 = 0 ∨ js_index ragged_puzzle 1 = None) ∧
        (∀ el, o = Some el → el = LetterObj None 1 1) ∧
        (∀ findLetter, has_letter findLetter o = None)).
Proof.
  destruct (ragged_grid_search_outcome 5 3 ragged_puzzle (str "BC"))
    as [Hbool Hprobe]; [discriminate|].
  split; [discriminate|]. split; [done|].
  apply (Hprobe 0 1 (getBottomLetter ragged_puzzle 0 1) (1, 1)).
  - by eexists.
  - right. right. left.
  - reflexivity.
Defined.



(** ** Further properties of the search *)


Section Marks.
Context {char : Type} `{EqDecision char}.
Variable puzzle : list (list char).

Implicit Types (p q : cell) (ch : char) (blocked path : list cell)
  (rest : list char).


End Marks.



(** The helpers that probe the row above or below never throw, wherever
    they are called from; the helpers that probe the row of the call
    throw a [TypeError] exactly when that row is not stored. *)
Theorem helpers_TypeError {char : Type} (puzzle : list (list char))
    (row coll : Z) :
  getTopLetter puzzle row coll ≠ TypeError ∧
  getBottomLetter puzzle row coll ≠ TypeError ∧
  (getRightLetter puzzle row coll = TypeError ↔ js_index puzzle row = None) ∧
  (getLeftLetter puzzle row coll = TypeError ↔ js_index puzzle row = None).
Proof.
  unfold getTopLetter, getBottomLetter, getRightLetter, getLeftLetter,
    getLetterObj, puzzle_at.
  split; [|split; [|split]].
  - by destruct (js_index puzzle (row - 1)).
  - by destruct (js_index puzzle (row + 1)).
  - destruct (js_index puzzle row) as [r|]; simpl; [|done].
    by destruct (js_index r (coll + 1)).
  - destruct (js_index puzzle row) as [r|]; simpl; [|done].
    by destruct (js_index r (coll - 1)).
Qed.

Section Symmetry.
Context {char : Type} `{EqDecision char}.

Implicit Types (p q : cell) (ch : char) (path : list cell)
  (puzzle : list (list char)).

Lemma chain_app_inv path1 path2 :
  chain (path1 ++ path2) → chain path1 ∧ chain path2.
Proof.
  induction path1 as [|p path1 IH]; simpl; intros Hchain.
  - split; [constructor|done].
  - destruct path1 as [|p' path1]; simpl in *.
    + split; [constructor|]. inversion Hchain; subst; [constructor|done].
    + inversion Hchain as [| |? ? ? Hadj Hchain']; subst.
      destruct (IH Hchain') as [Hc1 Hc2]. split; [by constructor|done].
Qed.

Lemma snake_word_app puzzle (word1 word2 : list char) :
  snake_word puzzle (word1 ++ word2) →
  snake_word puzzle word1 ∧ snake_word puzzle word2.
Proof.
  intros (path & Hnd & Hchain & Hsp).
  apply Forall2_app_inv_r in Hsp as (path1 & path2 & Hsp1 & Hsp2 & ->).
  apply NoDup_app in Hnd as (Hnd1 & _ & Hnd2).
  apply chain_app_inv in Hchain as [Hc1 Hc2].
  split; [by exists path1|by exists path2].
Qed.

(** A map of the cells that keeps neighbours neighbours, distinct cells
    of the grid distinct and every character in place carries simple
    paths to simple paths. *)
Lemma snake_word_transport puzzle puzzle' (move : cell → cell)
    (query : list char) :
  (∀ p q, adjacent p q → adjacent (move p) (move q)) →
  (∀ p q, move p = move q → p = q) →
  (∀ p ch, char_at puzzle p = Some ch → char_at puzzle' (move p) = Some ch) →
  snake_word puzzle query → snake_word puzzle' query.
Proof.
  intros Hadj Hinj Hch (path & Hnd & Hchain & Hsp). exists (move <$> path).
  split; [|split].
  - apply NoDup_fmap_2_strong; [|done]. intros p q _ _. apply Hinj.
  - clear Hnd Hsp. induction Hchain as [|p|p q path Hpq Hchain IH]; simpl.
    + constructor.
    + constructor.
    + constructor; [by apply Hadj|done].
  - apply Forall2_fmap_l. eapply Forall2_impl; [done|].
    intros p ch. apply Hch.
Qed.

Lemma js_index_reverse {A} (arr : list A) (i : Z) :
  0 ≤ i < Z.of_nat (length arr) →
  js_index (reverse arr) (Z.of_nat (length arr) - 1 - i) = js_index arr i.
Proof.
  intros Hi. unfold js_index. rewrite !decide_True by lia.
  rewrite reverse_lookup by lia. f_equal. lia.
Qed.

Lemma snake_word_upside_down puzzle (query : list char) :
  snake_word puzzle query → snake_word (reverse puzzle) query.
Proof.
  apply (snake_word_transport _ _
           (λ p, (Z.of_nat (length puzzle) - 1 - p.1, p.2))).
  - intros [r c] [r' c']. unfold adjacent. simpl. lia.
  - intros [r c] [r' c'] [= Hr ->]. f_equal. lia.
  - intros [r c] ch. unfold char_at. simpl. intros Hch.
    rewrite js_index_reverse; [done|].
    apply js_index_is_Some. by destruct (js_index puzzle r).
Qed.

Lemma snake_word_mirrored puzzle (columnCount : nat) (query : list char) :
  rectangular puzzle columnCount →
  snake_word puzzle query → snake_word (reverse <$> puzzle) query.
Proof.
  intros Hrect.
  apply (snake_word_transport _ _
           (λ p, (p.1, Z.of_nat columnCount - 1 - p.2))).
  - intros [r c] [r' c']. unfold adjacent. simpl. lia.
  - intros [r c] [r' c'] [= -> Hc]. f_equal. lia.
  - intros [r c] ch. unfold char_at. simpl.
    destruct (js_index puzzle r) as [cells|] eqn:Hr; [|done].
    apply js_index_Some in Hr as [Hr0 Hr].
    assert (js_index (reverse <$> puzzle) r = Some (reverse cells)) as ->.
    { apply js_index_Some. split; [done|].
      by rewrite list_lookup_fmap, Hr. }
    assert (length cells = columnCount) as <-.
    { unfold rectangular in Hrect. rewrite Forall_forall in Hrect.
      apply Hrect. by apply list_elem_of_lookup_2 in Hr. }
    intros Hch. rewrite js_index_reverse; [done|].
    apply js_index_is_Some. by exists ch.
Qed.

Lemma rectangular_mirrored puzzle (columnCount : nat) :
  rectangular puzzle columnCount → rectangular (reverse <$> puzzle) columnCount.
Proof.
  unfold rectangular. rewrite Forall_fmap. intros Hrect.
  eapply Forall_impl; [done|]. intros r. simpl. by rewrite length_reverse.
Qed.

Lemma mirrored_twice puzzle : reverse <$> (reverse <$> puzzle) = puzzle.
Proof.
  rewrite <- list_fmap_compose. rewrite <- (list_fmap_id puzzle) at 2.
  apply list_fmap_ext. intros _ r _. apply reverse_involutive.
Qed.

(** Two grids with the same words of simple paths get the same
    answers. *)
Lemma same_words_same_answer puzzle puzzle' (searchStr : list char) :
  (snake_word puzzle searchStr ↔ snake_word puzzle' searchStr) →
  findStringInSnakingPuzzle puzzle searchStr =
  findStringInSnakingPuzzle puzzle' searchStr.
Proof.
  intros Hsame.
  destruct (findStringInSnakingPuzzle_spec puzzle searchStr) as (b & -> & Hiff).
  destruct (findStringInSnakingPuzzle_spec puzzle' searchStr)
    as (b' & -> & Hiff').
  f_equal. rewrite <- Hsame, <- Hiff in Hiff'.
  destruct b, b'; try done.
  - symmetry. by apply Hiff'.
  - by apply Hiff'.
Qed.
End Symmetry.

(** A query that is found stays found when characters are cut off at
    its start and at its end, as long as some are left. *)
Theorem found_substring_found {char : Type} `{EqDecision char}
    (puzzle : list (list char)) (before word after : list char) :
  findStringInSnakingPuzzle puzzle (before ++ word ++ after) = Ok true →
  word ≠ [] →
  findStringInSnakingPuzzle puzzle word = Ok true.
Proof.
  intros Hfound Hne.
  destruct (findStringInSnakingPuzzle_spec puzzle (before ++ word ++ after))
    as (b & Hb & Hiff).
  destruct (findStringInSnakingPuzzle_spec puzzle word) as (b' & -> & Hiff').
  f_equal. apply Hiff'. split; [done|].
  assert (b = true) as -> by congruence.
  destruct Hiff as [[_ Hword] _]; [done|].
  apply snake_word_app in Hword as [_ Hword].
  by apply snake_word_app in Hword as [Hword _].
Qed.

Lemma found_substring_found_witness :
  findStringInSnakingPuzzle example_puzzle
    (str "UN" ++ str "DEFINE" ++ str "D") = Ok true ∧
  str "DEFINE" ≠ [] ∧
  findStringInSnakingPuzzle example_puzzle (str "DEFINE") = Ok true.
Proof.
  assert (findStringInSnakingPuzzle example_puzzle
            (str "UN" ++ str "DEFINE" ++ str "D") = Ok true) as Hfound
    by (vm_compute; reflexivity).
  split; [done|]. split; [discriminate|].
  by apply (found_substring_found example_puzzle (str "UN") (str "DEFINE")
              (str "D")).
Defined.

(** Turning the grid upside down (the rows in reverse order) does not
    change the answer, whatever the lengths of the rows. *)
Theorem upside_down_same_answer {char : Type} `{EqDecision char}
    (puzzle : list (list char)) (searchStr : list char) :
  findStringInSnakingPuzzle (reverse puzzle) searchStr =
  findStringInSnakingPuzzle puzzle searchStr.
Proof.
  apply same_words_same_answer. split.
  - intros Hword%snake_word_upside_down. by rewrite reverse_involutive in Hword.
  - apply snake_word_upside_down.
Qed.

(** Mirroring a rectangular grid (every row reversed) does not change
    the answer. *)
Theorem mirrored_same_answer {char : Type} `{EqDecision char}
    (puzzle : list (list char)) (columnCount : nat) (searchStr : list char) :
  rectangular puzzle columnCount →
  findStringInSnakingPuzzle (reverse <$> puzzle) searchStr =
  findStringInSnakingPuzzle puzzle searchStr.
Proof.
  intros Hrect. apply same_words_same_answer. split.
  - intros Hword. rewrite <- (mirrored_twice puzzle).
    apply (snake_word_mirrored _ columnCount); [|done].
    by apply rectangular_mirrored.
  - by apply (snake_word_mirrored _ columnCount).
Qed.

Lemma mirrored_same_answer_witness :
  rectangular example_puzzle 7 ∧
  findStringInSnakingPuzzle (reverse <$> example_puzzle) (str "REACT") =
  findStringInSnakingPuzzle example_puzzle (str "REACT").
Proof.
  split; [apply rectangular_example|].
  apply (mirrored_same_answer example_puzzle 7 (str "REACT")).
  apply rectangular_example.
Defined.

(** ** getPermutations: the strings yielded *)

Section Permutations.
Context {char : Type}.

Implicit Types (chars mutation : list char) (c : char)
  (yielded : list (list char)).

Lemma slice_0 chars (i : nat) : slice chars 0 i = take i chars.
Proof. unfold slice. by rewrite Nat.sub_0_r. Qed.

(** What the loop does to [chars] and [mutation] before the recursive
    call, and that it undoes it afterwards. *)
Lemma chars_without chars (i : nat) :
  slice chars 0 i ++ slice_from chars (i + 1) = delete i chars.
Proof.
  rewrite slice_0, delete_take_drop. unfold slice_from.
  by rewrite Nat.add_1_r.
Qed.

Lemma chars_restored chars (i : nat) c :
  chars !! i = Some c →
  slice (delete i chars) 0 i ++ [c] ++ slice_from (delete i chars) i = chars.
Proof.
  intros Hi. pose proof (lookup_lt_Some _ _ _ Hi) as Hlt.
  rewrite slice_0, delete_take_drop. unfold slice_from.
  rewrite take_app_length' by (rewrite length_take_le; lia).
  rewrite drop_app_length' by (rewrite length_take_le; lia).
  by apply take_drop_middle.
Qed.

Lemma mutation_restored mutation c :
  slice (mutation ++ [c]) 0 (length (mutation ++ [c]) - 1) = mutation.
Proof.
  rewrite slice_0, length_app. simpl.
  replace (length mutation + 1 - 1)%nat with (length mutation) by lia.
  apply take_app_length.
Qed.

Lemma getPermutations_loop_eq
    (call : list char → list char → option (list (list char)))
    (inner : nat → char → list (list char)) chars mutation :
  (∀ i c, chars !! i = Some c →
          call (delete i chars) (mutation ++ [c]) = Some (inner i c)) →
  ∀ passes i yielded,
    (length chars ≤ i + passes)%nat →
    getPermutations_loop call passes i chars mutation yielded =
    Some (yielded ++ mjoin (drop i (imap inner chars))).
Proof.
  intros Hcall passes. induction passes as [|passes IH]; intros i yielded Hfuel.
  - simpl. rewrite decide_False by lia.
    rewrite drop_ge by (rewrite length_imap; lia). simpl.
    by rewrite app_nil_r.
  - simpl. destruct (decide (i < length chars)%nat) as [Hlt|Hge].
    + destruct (lookup_lt_is_Some_2 chars i Hlt) as [c Hc].
      unfold charAt. rewrite Hc, chars_without, (Hcall i c Hc).
      rewrite mutation_restored, (chars_restored chars i c Hc).
      rewrite IH by lia.
      rewrite (drop_S (imap inner chars) (inner i c) i)
        by by rewrite list_lookup_imap, Hc.
      simpl. by rewrite Nat.add_1_r, app_assoc.
    + rewrite drop_ge by (rewrite length_imap; lia). simpl.
      by rewrite app_nil_r.
Qed.

Lemma after_mutation mutation (l : list char)
    (f : nat → char → list (list char)) :
  mjoin (imap (λ i c, ((mutation ++ [c]) ++.) <$> f i c) l) =
  (mutation ++.) <$> mjoin (imap (λ i c, (c ::.) <$> f i c) l).
Proof.
  induction l as [|c l IHl] in f |- *; [done|].
  rewrite !imap_cons. simpl. rewrite fmap_app. f_equal.
  - rewrite <- list_fmap_compose. apply list_fmap_ext.
    intros _ y _. simpl. by rewrite <- app_assoc.
  - apply (IHl (f ∘ S)).
Qed.

(** With fuel above the length of [chars] the generator yields, after
    [mutation], every string of [permutations_of]. *)
Lemma getPermutations_fuel_eq (fuel : nat) :
  ∀ chars mutation,
    (length chars < fuel)%nat →
    getPermutations_fuel fuel chars mutation =
    Some ((mutation ++.) <$> permutations_of (length chars) chars).
Proof.
  induction fuel as [|fuel IH]; intros chars mutation Hfuel; [lia|].
  simpl.
  rewrite (getPermutations_loop_eq _
             (λ i c, ((mutation ++ [c]) ++.) <$>
                       permutations_of (length chars - 1) (delete i chars))).
  - f_equal. rewrite drop_0.
    destruct chars as [|c0 chars]; [simpl; by rewrite app_nil_r|].
    rewrite decide_False by done.
    change (length (c0 :: chars)) with (S (length chars)).
    replace (S (length chars) - 1)%nat with (length chars) by lia.
    cbn [permutations_of]. apply after_mutation.
  - intros i c Hc. rewrite IH.
    + by rewrite length_delete by (by exists c).
    + rewrite length_delete by (by exists c).
      apply lookup_lt_Some in Hc. lia.
  - lia.
Qed.

(** *** The strings of [permutations_of] *)

Lemma elem_of_join_imap {B : Type} (F : nat → char → list B) (l : list char)
    (x : B) :
  x ∈ mjoin (imap F l) ↔ ∃ i c, l !! i = Some c ∧ x ∈ F i c.
Proof.
  rewrite list_elem_of_join. split.
  - intros (k & Hx & (i & c & -> & Hc)%elem_of_lookup_imap). by exists i, c.
  - intros (i & c & Hc & Hx). exists (F i c). split; [done|].
    by apply elem_of_lookup_imap_2.
Qed.

Lemma elem_of_permutations_of (n : nat) :
  ∀ chars (x : list char),
    length chars = n → (x ∈ permutations_of n chars ↔ x ≡ₚ chars).
Proof.
  induction n as [|n IH]; intros chars x Hlen; simpl.
  - apply nil_length_inv in Hlen as ->.
    rewrite list_elem_of_singleton, Permutation_nil_r. done.
  - rewrite elem_of_join_imap. split.
    + intros (i & c & Hc & (y & -> & Hy)%list_elem_of_fmap).
      apply IH in Hy; [|rewrite length_delete by (by exists c); lia].
      rewrite Hy. symmetry. by apply delete_Permutation.
    + intros Hperm.
      destruct x as [|c y];
        [apply Permutation_length in Hperm; simpl in Hperm; lia|].
      assert (c ∈ chars) as [i Hc]%list_elem_of_lookup.
      { rewrite <- Hperm. left. }
      exists i, c. split; [done|]. apply list_elem_of_fmap.
      exists y. split; [done|].
      apply IH; [rewrite length_delete by (by exists c); lia|].
      apply (Permutation_cons_inv (a := c)).
      rewrite Hperm. by apply delete_Permutation.
Qed.

Lemma length_join_imap {B : Type} (F : nat → char → list B) (l : list char)
    (k : nat) :
  (∀ i c, l !! i = Some c → length (F i c) = k) →
  length (mjoin (imap F l)) = (length l * k)%nat.
Proof.
  induction l as [|c l IH] in F |- *; intros HF; [done|].
  rewrite imap_cons. simpl. rewrite length_app, (HF 0%nat c eq_refl).
  rewrite (IH (F ∘ S)); [done|]. intros i c' Hc'. by apply (HF (S i)).
Qed.

Lemma length_permutations_of (n : nat) :
  ∀ chars, length chars = n → length (permutations_of n chars) = fact n.
Proof.
  induction n as [|n IH]; intros chars Hlen; [done|].
  cbn [permutations_of]. rewrite (length_join_imap _ _ (fact n)).
  - rewrite Hlen. simpl. lia.
  - intros i c Hc. rewrite length_fmap. apply IH.
    rewrite length_delete by (by exists c). lia.
Qed.

Lemma NoDup_join_imap {B : Type} (F : nat → char → list B) (l : list char) :
  NoDup (mjoin (imap F l)) ↔
  (∀ i c, l !! i = Some c → NoDup (F i c)) ∧
  (∀ i j c d x, l !! i = Some c → l !! j = Some d →
                x ∈ F i c → x ∈ F j d → i = j).
Proof.
  induction l as [|c l IH] in F |- *.
  - simpl. split; [|constructor]. intros _. split; intros; simplify_eq.
  - rewrite imap_cons. simpl. rewrite NoDup_app, (IH (F ∘ S)). split.
    + intros (Hnd & Hdisj & Hnds & Hinj). split.
      * intros [|i] c' Hc'; simplify_eq/=; [done|]. by apply Hnds.
      * intros [|i] [|j] c' d x Hc' Hd Hx Hx'; simplify_eq/=; [done|..].
        -- destruct (Hdisj x Hx). apply elem_of_join_imap. by exists j, d.
        -- destruct (Hdisj x Hx'). apply elem_of_join_imap. by exists i, c'.
        -- f_equal. by apply (Hinj i j c' d x).
    + intros [Hnd Hinj]. split; [by apply (Hnd 0%nat)|]. split; [|split].
      * intros x Hx (j & d & Hd & Hx')%elem_of_join_imap.
        by specialize (Hinj 0%nat (S j) c d x eq_refl Hd Hx Hx').
      * intros i c' Hc'. by apply (Hnd (S i)).
      * intros i j c' d x Hc' Hd Hx Hx'.
        by specialize (Hinj (S i) (S j) c' d x Hc' Hd Hx Hx') as [= ->].
Qed.

Lemma NoDup_permutations_of (n : nat) :
  ∀ chars, length chars = n →
           (NoDup (permutations_of n chars) ↔ NoDup chars).
Proof.
  induction n as [|n IH]; intros chars Hlen.
  - apply nil_length_inv in Hlen as ->. simpl. split; intros _.
    + constructor.
    + apply NoDup_singleton.
  - cbn [permutations_of]. rewrite NoDup_join_imap. split.
    + intros [_ Hinj]. apply NoDup_alt. intros i j c Hi Hj.
      apply (Hinj i j c c (c :: delete i chars) Hi Hj).
      * apply list_elem_of_fmap. exists (delete i chars). split; [done|].
        apply elem_of_permutations_of; [|done].
        rewrite length_delete by (by exists c). lia.
      * apply list_elem_of_fmap. exists (delete i chars). split; [done|].
        apply elem_of_permutations_of;
          [rewrite length_delete by (by exists c); lia|].
        apply (Permutation_cons_inv (a := c)).
        rewrite <- (delete_Permutation chars i c Hi).
        by apply delete_Permutation.
    + intros Hnd. split.
      * intros i c Hc. apply (NoDup_fmap_2 _).
        apply IH; [rewrite length_delete by (by exists c); lia|].
        rewrite (delete_Permutation chars i c Hc) in Hnd.
        by apply NoDup_cons in Hnd as [_ Hnd].
      * intros i j c d x Hc Hd (y & -> & _)%list_elem_of_fmap
          (y' & [= <- _] & _)%list_elem_of_fmap.
        by apply (NoDup_lookup chars i j c).
Qed.

Lemma head_permutations_of (n : nat) :
  ∀ chars, length chars = n → head (permutations_of n chars) = Some chars.
Proof.
  induction n as [|n IH]; intros chars Hlen.
  - by apply nil_length_inv in Hlen as ->.
  - destruct chars as [|c chars]; [done|]. cbn [permutations_of].
    rewrite imap_cons. simpl. rewrite head_app.
    destruct (permutations_of n chars) as [|y ys] eqn:Hperms.
    + specialize (IH chars). rewrite Hperms in IH. simpl in *.
      discriminate IH. lia.
    + specialize (IH chars). rewrite Hperms in IH. simpl in *.
      injection IH as ->; [done|lia].
Qed.

Lemma last_permutations_of (n : nat) :
  ∀ chars, length chars = n →
           last (permutations_of n chars) = Some (reverse chars).
Proof.
  induction n as [|n IH]; intros chars Hlen.
  - by apply nil_length_inv in Hlen as ->.
  - destruct chars as [|c chars _] using rev_ind; [done|].
    rewrite length_app in Hlen. simpl in Hlen.
    cbn [permutations_of]. rewrite imap_app, join_app. simpl.
    rewrite app_nil_r, Nat.add_0_r, last_app, fmap_last.
    replace (delete (length chars) (chars ++ [c])) with chars
      by (by rewrite delete_middle, app_nil_r).
    rewrite IH by lia. simpl. by rewrite reverse_snoc.
Qed.
End Permutations.

(** The generator ends and yields exactly the permutations of its
    argument: a string is yielded if and only if it has the characters
    of [chars], each as often as [chars] has it. *)
Theorem getPermutations_yields_permutations {char : Type}
    (chars : list char) :
  ∃ yielded, getPermutations chars = Some yielded ∧
             ∀ x, x ∈ yielded ↔ x ≡ₚ chars.
Proof.
  unfold getPermutations. rewrite getPermutations_fuel_eq by lia.
  eexists. split; [done|]. intros x. simpl. rewrite list_fmap_id.
  by apply elem_of_permutations_of.
Qed.

(** The number of strings yielded is the factorial of the length of the
    argument. *)
Theorem getPermutations_count {char : Type} (chars : list char) :
  ∃ yielded, getPermutations chars = Some yielded ∧
             length yielded = fact (length chars).
Proof.
  unfold getPermutations. rewrite getPermutations_fuel_eq by lia.
  eexists. split; [done|]. rewrite length_fmap.
  by apply length_permutations_of.
Qed.

(** No string is yielded twice if and only if the characters of the
    argument are different from one another, as the documentation of
    the function assumes. *)
Theorem getPermutations_no_duplicates {char : Type} (chars : list char) :
  ∃ yielded, getPermutations chars = Some yielded ∧
             (NoDup yielded ↔ NoDup chars).
Proof.
  unfold getPermutations. rewrite getPermutations_fuel_eq by lia.
  eexists. split; [done|]. simpl. rewrite list_fmap_id.
  by apply NoDup_permutations_of.
Qed.

(** The first string yielded is the argument itself and the last one is
    the argument reversed. *)
Theorem getPermutations_first_last {char : Type} (chars : list char) :
  ∃ yielded, getPermutations chars = Some yielded ∧
             head yielded = Some chars ∧
             last yielded = Some (reverse chars).
Proof.
  unfold getPermutations. rewrite getPermutations_fuel_eq by lia.
  eexists. split; [done|]. simpl. rewrite list_fmap_id.
  split; [by apply head_permutations_of|by apply last_permutations_of].
Qed.

(** A call with a second argument, as the generator makes them on
    itself, yields the strings of the call without it, each after
    [mutation]; fuel above the length of [chars] is enough and more
    fuel changes nothing. *)
Theorem getPermutations_after_mutation {char : Type} (fuel : nat)
    (chars mutation : list char) :
  (length chars < fuel)%nat →
  ∃ yielded, getPermutations chars = Some yielded ∧
             getPermutations_fuel fuel chars mutation =
             Some ((mutation ++.) <$> yielded).
Proof.
  intros Hfuel. unfold getPermutations.
  rewrite !getPermutations_fuel_eq by lia.
  eexists. split; [done|]. f_equal. simpl. by rewrite list_fmap_id.
Qed.

Lemma getPermutations_after_mutation_witness :
  (length (str "ab") < 7)%nat ∧
  ∃ yielded, getPermutations (str "ab") = Some yielded ∧
             getPermutations_fuel 7 (str "ab") (str "xy") =
             Some ((str "xy" ++.) <$> yielded).
Proof.
  assert (length (str "ab") < 7)%nat as Hfuel by (simpl; lia).
  split; [done|].
  by apply (getPermutations_after_mutation 7 (str "ab") (str "xy")).
Defined.

(** ** Numbers: what is not rounded *)

(** On the sample numbers, taken two by two, the sum, the difference and
    the product of [number] are those of the doubles. *)
Lemma numbers_checked :
  Forall (λ x,
    number_of_float (float_of x) = x ∧
    Forall (λ y,
      number_of_float (PrimFloat.add (float_of x) (float_of y)) = js_add x y ∧
      number_of_float (PrimFloat.sub (float_of x) (float_of y)) = js_sub x y ∧
      number_of_float (PrimFloat.mul (float_of x) (float_of y)) = js_mul x y)
      sample_numbers) sample_numbers.
Proof. apply (bool_decide_unpack _). vm_compute. exact I. Qed.

(** An integer up to [2 ^ 53] in magnitude is a double. *)
Lemma to_double_exact (z : Z) : Z.abs z ≤ 2 ^ 53 → to_double z = Finite z.
Proof.
  intros Hz. unfold to_double.
  destruct (decide (Z.log2 (Z.abs z) - 52 ≤ 0)) as [|Hexp]; [done|].
  assert (Z.abs z = 2 ^ 53) as Habs.
  { assert (Z.abs z < 2 ^ 53 → Z.log2 (Z.abs z) < 53) as Hlog.
    { intros Hlt. destruct (decide (Z.abs z = 0)) as [->|]; [done|].
      apply Z.log2_lt_pow2; lia. }
    lia. }
  rewrite Habs. replace (Z.log2 (2 ^ 53)) with 53 by done.
  change (Finite (Z.sgn z * 2 ^ 53) = Finite z). f_equal. lia.
Qed.

Lemma js_add_exact (a b : Z) :
  Z.abs (a + b) ≤ 2 ^ 53 → js_add (Finite a) (Finite b) = Finite (a + b).
Proof. apply to_double_exact. Qed.

Lemma js_sub_exact (a b : Z) :
  Z.abs (a - b) ≤ 2 ^ 53 → js_sub (Finite a) (Finite b) = Finite (a - b).
Proof. apply to_double_exact. Qed.

Lemma js_mul_exact (a b : Z) :
  Z.abs (a * b) ≤ 2 ^ 53 → js_mul (Finite a) (Finite b) = Finite (a * b).
Proof. apply to_double_exact. Qed.

(** ** getMostProfitFromStockQuotes: the profit *)

Section Quotes.
Implicit Types (quotes later buy : list Z) (price profit cash : Z).

Lemma Math_max_None quotes : Math_max quotes = None ↔ quotes = [].
Proof. by destruct quotes. Qed.

Lemma Math_max_cons price later :
  Math_max (price :: later) =
  Some (match Math_max later with Some y => Z.max price y | None => price end).
Proof. done. Qed.

Lemma Math_max_upper quotes m :
  Math_max quotes = Some m → ∀ x, x ∈ quotes → x ≤ m.
Proof.
  revert m. induction quotes as [|price later IH]; intros m; [done|].
  simpl. intros [= <-] x [->|Hx]%elem_of_cons.
  - destruct (Math_max later); lia.
  - destruct (Math_max later) as [m'|] eqn:Hm.
    + specialize (IH m' eq_refl x Hx). lia.
    + apply Math_max_None in Hm as ->. by apply elem_of_nil in Hx.
Qed.

Lemma proceeds_nil price : proceeds price [] = 0.
Proof. done. Qed.

Lemma proceeds_snoc price buy b :
  proceeds price (buy ++ [b]) = proceeds price buy + (price - b).
Proof. unfold proceeds. by rewrite foldl_app. Qed.

Lemma proceeds_nonneg price buy :
  Forall (λ b, b ≤ price) buy → 0 ≤ proceeds price buy.
Proof.
  induction buy as [|b buy IH] using rev_ind; intros Hbuy; [done|].
  rewrite Forall_app, Forall_singleton in Hbuy. destruct Hbuy as [Hbuy Hb].
  rewrite proceeds_snoc. specialize (IH Hbuy). lia.
Qed.

(** The sum of [reduce] is exact when it fits a double: its terms are
    not negative, so that no partial sum is larger. *)
Lemma sell_all_exact price buy :
  Forall (λ b, b ≤ price) buy → proceeds price buy ≤ 2 ^ 53 →
  sell_all price buy = Finite (proceeds price buy).
Proof.
  unfold sell_all.
  induction buy as [|b buy IH] using rev_ind; intros Hbuy Hfits; [done|].
  rewrite Forall_app, Forall_singleton in Hbuy. destruct Hbuy as [Hbuy Hb].
  rewrite proceeds_snoc in *. pose proof (proceeds_nonneg price buy Hbuy) as Hnn.
  rewrite foldl_app. cbn [foldl]. rewrite IH by (done || lia).
  rewrite js_sub_exact by lia. rewrite js_add_exact by lia. done.
Qed.

Lemma best_gains_nonneg quotes : 0 ≤ best_gains quotes.
Proof.
  induction quotes as [|price later IH]; simpl; [done|].
  destruct (Math_max later); lia.
Qed.

(** The loop from day [i] on, with [n] days to go: the units held are
    sold at the highest price to come.  The units held were bought below
    that price, and nothing is rounded when the profit to come fits a
    double. *)
Lemma quote_loop quotes (n : nat) :
  ∀ (i : nat) buy profit,
    (i + n = length quotes)%nat → (buy ≠ [] → n ≠ 0%nat) →
    0 ≤ profit →
    (∀ m, Math_max (drop i quotes) = Some m → Forall (λ b, b ≤ m) buy) →
    profit +
    match Math_max (drop i quotes) with
    | Some m => proceeds m buy
    | None => 0
    end + best_gains (drop i quotes) ≤ 2 ^ 53 →
    (foldl (quote_pass quotes) (buy, Finite profit) (seq i n)).2 =
    Finite (profit +
            match Math_max (drop i quotes) with
            | Some m => proceeds m buy
            | None => 0
            end + best_gains (drop i quotes)).
Proof.
  induction n as [|n IH]; intros i buy profit Hlen Hheld Hprofit Hbought Hfits.
  - destruct buy; [|by destruct Hheld].
    rewrite drop_ge by lia. simpl. f_equal; lia.
  - destruct (lookup_lt_is_Some_2 quotes i) as [price Hprice]; [lia|].
    rewrite (drop_S quotes price i Hprice) in *.
    cbn [seq foldl]. unfold quote_pass at 2. cbn [fst snd].
    rewrite Hprice, Nat.add_1_r. rewrite Math_max_cons in *.
    cbn [best_gains] in *.
    pose proof (best_gains_nonneg (drop (S i) quotes)) as Hgains.
    specialize (Hbought _ eq_refl).
    destruct (Math_max (drop (S i) quotes)) as [m|] eqn:Hm; cbn [below].
    + destruct (bool_decide (price < m)) eqn:Hlt.
      * apply bool_decide_eq_true in Hlt.
        rewrite Z.max_r in * by lia.
        rewrite IH; [|lia| |done| |].
        -- rewrite Hm. unfold js_push. rewrite proceeds_snoc. f_equal; lia.
        -- intros _ ->. rewrite drop_ge in Hm by lia. done.
        -- rewrite Hm. intros m' [= <-]. unfold js_push.
           apply Forall_app. split; [done|]. apply Forall_singleton. lia.
        -- rewrite Hm. unfold js_push. rewrite proceeds_snoc. lia.
      * apply bool_decide_eq_false in Hlt. rewrite Z.max_l in * by lia.
        pose proof (proceeds_nonneg price buy Hbought) as Hnn.
        destruct (bool_decide (length buy ≠ 0%nat)) eqn:Hbuy.
        -- rewrite sell_all_exact by (done || lia).
           rewrite js_add_exact by lia.
           rewrite IH; [|lia|done|lia|by intros|].
           ++ rewrite Hm, proceeds_nil. f_equal; lia.
           ++ rewrite Hm, proceeds_nil. lia.
        -- apply bool_decide_eq_false in Hbuy.
           assert (buy = []) as -> by (destruct buy; [done|by destruct Hbuy]).
           rewrite IH; [|lia|done|lia|by intros|].
           ++ rewrite Hm. rewrite ?proceeds_nil in *. f_equal; lia.
           ++ rewrite Hm. rewrite ?proceeds_nil in *. lia.
    + pose proof (proceeds_nonneg price buy Hbought) as Hnn.
      destruct (bool_decide (length buy ≠ 0%nat)) eqn:Hbuy.
      * rewrite sell_all_exact by (done || lia).
        rewrite js_add_exact by lia.
        rewrite IH; [|lia|done|lia|by intros|].
        -- rewrite Hm. f_equal; lia.
        -- rewrite Hm. lia.
      * apply bool_decide_eq_false in Hbuy.
        assert (buy = []) as -> by (destruct buy; [done|by destruct Hbuy]).
        rewrite IH; [|lia|done|lia|by intros|].
        -- rewrite Hm. rewrite ?proceeds_nil in *. f_equal; lia.
        -- rewrite Hm. rewrite ?proceeds_nil in *. lia.
Qed.

(** No sum is rounded when the sum of the best gains fits a double, and
    the profit is that sum. *)
Lemma getMostProfitFromStockQuotes_eq quotes :
  best_gains quotes ≤ 2 ^ 53 →
  getMostProfitFromStockQuotes quotes = Finite (best_gains quotes).
Proof.
  intros Hfits. unfold getMostProfitFromStockQuotes.
  rewrite (quote_loop quotes (length quotes) 0 [] 0); rewrite ?drop_0;
    try done.
  - f_equal. destruct (Math_max quotes); rewrite ?proceeds_nil; lia.
  - destruct (Math_max quotes); rewrite ?proceeds_nil; lia.
Qed.

Lemma best_gains_zero quotes :
  best_gains quotes = 0 ↔ StronglySorted Z.ge quotes.
Proof.
  induction quotes as [|price later IH]; simpl.
  - split; [constructor|done].
  - pose proof (best_gains_nonneg later) as Hnn. split.
    + intros Hzero. constructor.
      * apply IH. destruct (Math_max later); lia.
      * apply Forall_forall. intros x Hx.
        destruct (Math_max later) as [m|] eqn:Hm.
        -- pose proof (Math_max_upper later m Hm x Hx). lia.
        -- apply Math_max_None in Hm as ->. by apply elem_of_nil in Hx.
    + intros Hsorted. apply StronglySorted_inv in Hsorted as [Hlater Hall].
      apply IH in Hlater. rewrite Hlater.
      destruct (Math_max later) as [m|] eqn:Hm; [|done].
      assert (m ∈ later) as Hin.
      { clear -Hm. revert m Hm. induction later as [|x later IH]; intros m; [done|].
        simpl. intros [= <-]. destruct (Math_max later) as [m'|] eqn:Hm'.
        - destruct (Z.max_spec x m') as [[_ ->]|[_ ->]]; [right; by apply IH|left].
        - left. }
      rewrite Forall_forall in Hall. specialize (Hall m Hin). lia.
Qed.

Lemma best_gains_pair quotes (i j : nat) (p q : Z) :
  (i < j)%nat → quotes !! i = Some p → quotes !! j = Some q →
  q - p ≤ best_gains quotes.
Proof.
  revert i j. induction quotes as [|price later IH]; intros i j Hij Hi Hj; [done|].
  simpl. pose proof (best_gains_nonneg later) as Hnn.
  destruct j as [|j]; [lia|]. simpl in Hj. destruct i as [|i]; simpl in Hi.
  - injection Hi as ->. apply list_elem_of_lookup_2 in Hj.
    destruct (Math_max later) as [m|] eqn:Hm.
    + pose proof (Math_max_upper later m Hm q Hj). lia.
    + apply Math_max_None in Hm as ->. by apply elem_of_nil in Hj.
  - specialize (IH i j ltac:(lia) Hi Hj). destruct (Math_max later); lia.
Qed.

(** Quotes between [low] and [high]: every day gains [high - low] at
    most. *)
Lemma best_gains_bound quotes (low high : Z) :
  Forall (λ price, low ≤ price ≤ high) quotes →
  best_gains quotes ≤ Z.of_nat (length quotes) * (high - low).
Proof.
  induction 1 as [|price later Hprice Hlater IH]; [done|].
  cbn [best_gains length].
  assert (match Math_max later with Some m => m ≤ high | None => True end)
    as Hm.
  { destruct (Math_max later) as [m|] eqn:Hm; [|done].
    clear -Hm Hlater. revert m Hm.
    induction Hlater as [|x later Hx _ IH]; intros m; [done|].
    rewrite Math_max_cons. intros [= <-].
    destruct (Math_max later) as [m'|]; [|lia].
    specialize (IH m' eq_refl). lia. }
  destruct (Math_max later) as [m|]; lia.
Qed.

Lemma trade_plan_of quotes :
  ∀ cash (held : nat),
    (held ≠ 0%nat → quotes ≠ []) →
    trade quotes (plan_of quotes held) cash held =
    Some (cash +
          match Math_max quotes with
          | Some m => Z.of_nat held * m
          | None => 0
          end + best_gains quotes).
Proof.
  induction quotes as [|price later IH]; intros cash held Hheld.
  - destruct held; [|by destruct Hheld]. simpl. f_equal. lia.
  - rewrite Math_max_cons. cbn [plan_of best_gains].
    destruct (Math_max later) as [m|] eqn:Hm; simpl.
    + destruct (bool_decide (price < m)) eqn:Hlt; simpl.
      * apply bool_decide_eq_true in Hlt. rewrite IH.
        -- f_equal. rewrite Z.max_r by lia. lia.
        -- intros _ ->. done.
      * apply bool_decide_eq_false in Hlt. rewrite decide_True by done.
        rewrite Nat.sub_diag, IH by done.
        f_equal. rewrite Z.max_l by lia. lia.
    + rewrite decide_True by done. rewrite Nat.sub_diag, IH by done.
      f_equal. lia.
Qed.

Lemma trade_bound quotes :
  Forall (λ price, 0 ≤ price) quotes →
  ∀ plan cash (held : nat) final,
    trade quotes plan cash held = Some final →
    final ≤ cash +
            match Math_max quotes with
            | Some m => Z.of_nat held * m
            | None => 0
            end + best_gains quotes.
Proof.
  induction 1 as [|price later Hprice Hlater IH]; intros plan cash held final.
  - destruct plan; simpl; [|done]. intros [= ->]. lia.
  - pose proof (best_gains_nonneg later) as Hnn.
    rewrite Math_max_cons. cbn [best_gains].
    assert (match Math_max later with Some m => 0 ≤ m | None => True end)
      as Hm.
    { destruct later as [|x later]; [done|]. rewrite Math_max_cons.
      apply Forall_cons in Hlater as [Hx _].
      destruct (Math_max later); lia. }
    destruct plan as [|[|units|] plan]; simpl; [done|..].
    + intros Hfinal%IH. destruct (Math_max later) as [m|]; nia.
    + destruct (decide (units ≤ held)%nat) as [Hle|]; [|done].
      intros Hfinal%IH. destruct (Math_max later) as [m|]; nia.
    + intros Hfinal%IH. destruct (Math_max later) as [m|]; nia.
Qed.
End Quotes.

Lemma example_quotes_doubles : Forall is_double [1; 6; 5; 10; 8; 7].
Proof. by repeat constructor. Defined.

Lemma example_quotes_fit : best_gains [1; 6; 5; 10; 8; 7] ≤ 2 ^ 53.
Proof. by vm_compute. Defined.

(** When the quotes are doubles and the sum, over the days, of the
    highest price from that day on less the price of that day fits a
    double, the profit is that sum: every unit is bought on its day and
    sold at the best price still to come, and no sum is rounded. *)
Theorem profit_sums_best_gains (quotes : list Z) :
  Forall is_double quotes → best_gains quotes ≤ 2 ^ 53 →
  getMostProfitFromStockQuotes quotes = Finite (best_gains quotes).
Proof. intros _. apply getMostProfitFromStockQuotes_eq. Qed.

Lemma profit_sums_best_gains_witness :
  Forall is_double [1; 6; 5; 10; 8; 7] ∧
  best_gains [1; 6; 5; 10; 8; 7] ≤ 2 ^ 53 ∧
  getMostProfitFromStockQuotes [1; 6; 5; 10; 8; 7] =
  Finite (best_gains [1; 6; 5; 10; 8; 7]).
Proof.
  split; [apply example_quotes_doubles|]. split; [apply example_quotes_fit|].
  apply (profit_sums_best_gains [1; 6; 5; 10; 8; 7]);
    [apply example_quotes_doubles|apply example_quotes_fit].
Defined.

(** Under the same condition the profit is an integer that is not
    negative, and it is zero exactly when no price is followed, on any
    later day, by a higher one. *)
Theorem profit_zero_iff_never_rising (quotes : list Z) :
  Forall is_double quotes → best_gains quotes ≤ 2 ^ 53 →
  ∃ profit, getMostProfitFromStockQuotes quotes = Finite profit ∧
            0 ≤ profit ∧
            (profit = 0 ↔ StronglySorted Z.ge quotes).
Proof.
  intros _ Hfits. exists (best_gains quotes).
  split; [by apply getMostProfitFromStockQuotes_eq|].
  split; [apply best_gains_nonneg|apply best_gains_zero].
Qed.

Lemma profit_zero_iff_never_rising_witness :
  Forall is_double [6; 5; 4; 3; 2; 1] ∧
  best_gains [6; 5; 4; 3; 2; 1] ≤ 2 ^ 53 ∧
  ∃ profit, getMostProfitFromStockQuotes [6; 5; 4; 3; 2; 1] = Finite profit ∧
            0 ≤ profit ∧
            (profit = 0 ↔ StronglySorted Z.ge [6; 5; 4; 3; 2; 1]).
Proof.
  assert (Forall is_double [6; 5; 4; 3; 2; 1]) as Hdoubles
    by (by repeat constructor).
  assert (best_gains [6; 5; 4; 3; 2; 1] ≤ 2 ^ 53) as Hfits by (by vm_compute).
  split; [done|]. split; [done|].
  by apply (profit_zero_iff_never_rising [6; 5; 4; 3; 2; 1]).
Defined.

(** Under the same condition the profit is at least the difference of
    any two prices, the later less the earlier. *)
Theorem profit_at_least_any_pair (quotes : list Z) (i j : nat) (p q : Z) :
  Forall is_double quotes → best_gains quotes ≤ 2 ^ 53 →
  (i < j)%nat → quotes !! i = Some p → quotes !! j = Some q →
  ∃ profit, getMostProfitFromStockQuotes quotes = Finite profit ∧
            q - p ≤ profit.
Proof.
  intros _ Hfits Hij Hi Hj. exists (best_gains quotes).
  split; [by apply getMostProfitFromStockQuotes_eq|].
  by apply (best_gains_pair quotes i j).
Qed.

Lemma profit_at_least_any_pair_witness :
  Forall is_double [1; 6; 5; 10; 8; 7] ∧
  best_gains [1; 6; 5; 10; 8; 7] ≤ 2 ^ 53 ∧
  (0 < 3)%nat ∧ [1; 6; 5; 10; 8; 7] !! 0%nat = Some 1 ∧
  [1; 6; 5; 10; 8; 7] !! 3%nat = Some 10 ∧
  ∃ profit, getMostProfitFromStockQuotes [1; 6; 5; 10; 8; 7] = Finite profit ∧
            10 - 1 ≤ profit.
Proof.
  split; [apply example_quotes_doubles|]. split; [apply example_quotes_fit|].
  split; [lia|]. split; [done|]. split; [done|].
  by apply (profit_at_least_any_pair [1; 6; 5; 10; 8; 7] 0 3 1 10);
    [apply example_quotes_doubles|apply example_quotes_fit|lia|..].
Defined.

(** Under the same condition the profit is made by a plan that the
    documentation allows: buy one unit on every day with a higher price
    to come, and sell all units held on the other days. *)
Theorem profit_attained (quotes : list Z) :
  Forall is_double quotes → best_gains quotes ≤ 2 ^ 53 →
  ∃ profit, getMostProfitFromStockQuotes quotes = Finite profit ∧
            trade quotes (plan_of quotes 0) 0 0 = Some profit.
Proof.
  intros _ Hfits. exists (best_gains quotes).
  split; [by apply getMostProfitFromStockQuotes_eq|].
  rewrite trade_plan_of by done.
  f_equal. destruct (Math_max quotes); lia.
Qed.

Lemma profit_attained_witness :
  Forall is_double [1; 6; 5; 10; 8; 7] ∧
  best_gains [1; 6; 5; 10; 8; 7] ≤ 2 ^ 53 ∧
  ∃ profit, getMostProfitFromStockQuotes [1; 6; 5; 10; 8; 7] = Finite profit ∧
            trade [1; 6; 5; 10; 8; 7] (plan_of [1; 6; 5; 10; 8; 7] 0) 0 0 =
            Some profit.
Proof.
  split; [apply example_quotes_doubles|]. split; [apply example_quotes_fit|].
  apply (profit_attained [1; 6; 5; 10; 8; 7]);
    [apply example_quotes_doubles|apply example_quotes_fit].
Defined.

(** Under the same condition and when no price is negative, no plan
    that the documentation allows (a day is for buying one unit, selling
    units held, or nothing) ends with more money than the profit
    returned. *)
Theorem profit_is_most (quotes : list Z) (plan : list action) (final : Z) :
  Forall is_double quotes → best_gains quotes ≤ 2 ^ 53 →
  Forall (λ price, 0 ≤ price) quotes →
  trade quotes plan 0 0 = Some final →
  ∃ profit, getMostProfitFromStockQuotes quotes = Finite profit ∧
            final ≤ profit.
Proof.
  intros _ Hfits Hnn Hfinal. exists (best_gains quotes).
  split; [by apply getMostProfitFromStockQuotes_eq|].
  pose proof (trade_bound quotes Hnn plan 0 0%nat final Hfinal) as Hbound.
  destruct (Math_max quotes); lia.
Qed.

Lemma profit_is_most_witness :
  Forall is_double [1; 6; 5; 10; 8; 7] ∧
  best_gains [1; 6; 5; 10; 8; 7] ≤ 2 ^ 53 ∧
  Forall (λ price, 0 ≤ price) [1; 6; 5; 10; 8; 7] ∧
  trade [1; 6; 5; 10; 8; 7] [Buy; Sell 1; Buy; Sell 1; Nothing; Nothing] 0 0 =
    Some 10 ∧
  ∃ profit, getMostProfitFromStockQuotes [1; 6; 5; 10; 8; 7] = Finite profit ∧
            10 ≤ profit.
Proof.
  assert (Forall (λ price, 0 ≤ price) [1; 6; 5; 10; 8; 7]) as Hnn
    by (repeat constructor; lia).
  split; [apply example_quotes_doubles|]. split; [apply example_quotes_fit|].
  split; [done|]. split; [done|].
  by apply (profit_is_most [1; 6; 5; 10; 8; 7]
              [Buy; Sell 1; Buy; Sell 1; Nothing; Nothing] 10);
    [apply example_quotes_doubles|apply example_quotes_fit|..].
Defined.


(** ** UrlShortener: short links *)

Lemma pair_ind {A : Type} (P : list A → Prop) :
  P [] → (∀ x, P [x]) → (∀ x y l, P l → P (x :: y :: l)) → ∀ l, P l.
Proof.
  intros Hnil Hone Hpair l.
  assert (P l ∧ ∀ x, P (x :: l)) as [Hl _]; [|done].
  induction l as [|y l [IH1 IH2]]; [by split|].
  split; [apply IH2|]. intros x. by apply Hpair.
Qed.

(** *** What is checked on all indices *)

Lemma indices_checked :
  Forall (λ i : nat,
    indexOf <$> urlAllowedChars !! i = Some (Some (N.of_nat i)) ∧
    String.length (two_digits (N.of_nat i)) = 2%nat ∧
    digits_value (two_digits (N.of_nat i)) = Some (N.of_nat i)) (seq 0 84).
Proof. apply (bool_decide_unpack _). vm_compute. exact I. Qed.

Lemma pairs_checked :
  Forall (λ i : nat, Forall (λ j : nat,
    digits_value (String.append (two_digits (N.of_nat i))
                    (two_digits (N.of_nat j))) =
      Some (100 * N.of_nat i + N.of_nat j)%N ∧
    decode [(100 * N.of_nat i + N.of_nat j)%N] =
      Normal (omap (λ k : nat, urlAllowedChars !! k)
                (if decide (i = 0%nat) then [j] else [i; j])))
    (seq 0 84)) (seq 0 84).
Proof. apply (bool_decide_unpack _). vm_compute. exact I. Qed.

Section Shortener.
Implicit Types (url : list N) (char : N) (codes : list string).

Lemma string_length_append (s t : string) :
  String.length (String.append s t) = (String.length s + String.length t)%nat.
Proof. induction s as [|a s IH]; simpl; [done|]. by rewrite IH. Qed.

Lemma allowed_index char :
  char ∈ urlAllowedChars →
  ∃ i : nat, (i < 84)%nat ∧ urlAllowedChars !! i = Some char ∧
             indexOf char = Some (N.of_nat i).
Proof.
  intros [i Hi]%list_elem_of_lookup.
  pose proof (lookup_lt_Some _ _ _ Hi) as Hlt.
  change (length urlAllowedChars) with 84%nat in Hlt.
  exists i. split; [done|]. split; [done|].
  pose proof indices_checked as Hall. rewrite Forall_forall in Hall.
  destruct (Hall i) as [Hindex _]; [apply elem_of_seq; lia|].
  rewrite Hi in Hindex. by injection Hindex.
Qed.

Lemma disallowed_index char : char ∉ urlAllowedChars → indexOf char = None.
Proof.
  intros Hnot. unfold indexOf.
  destruct (list_find _ _) as [[i c]|] eqn:Hfind; [|done].
  apply list_find_Some in Hfind as (Hi%list_elem_of_lookup_2 & -> & _).
  done.
Qed.

Lemma index_checked (i : nat) :
  (i < 84)%nat →
  String.length (two_digits (N.of_nat i)) = 2%nat ∧
  digits_value (two_digits (N.of_nat i)) = Some (N.of_nat i).
Proof.
  intros Hi. pose proof indices_checked as Hall. rewrite Forall_forall in Hall.
  destruct (Hall i) as (_ & Hlen & Hval); [apply elem_of_seq; lia|done].
Qed.

Lemma pair_checked (i j : nat) :
  (i < 84)%nat → (j < 84)%nat →
  digits_value (String.append (two_digits (N.of_nat i))
                  (two_digits (N.of_nat j))) =
    Some (100 * N.of_nat i + N.of_nat j)%N ∧
  decode [(100 * N.of_nat i + N.of_nat j)%N] =
    Normal (omap (λ k : nat, urlAllowedChars !! k)
              (if decide (i = 0%nat) then [j] else [i; j])).
Proof.
  intros Hi Hj. pose proof pairs_checked as Hall.
  rewrite Forall_forall in Hall.
  specialize (Hall i ltac:(apply elem_of_seq; lia)).
  rewrite Forall_forall in Hall. apply Hall. apply elem_of_seq. lia.
Qed.

Lemma getXXPosition_allowed char :
  char ∈ urlAllowedChars →
  getXXPosition char = Normal (two_digits (position_of char)).
Proof.
  intros (i & _ & _ & Hindex)%allowed_index.
  unfold getXXPosition, position_of, two_digits. rewrite Hindex.
  by destruct (9 <? N.of_nat i)%N.
Qed.

Lemma position_of_allowed char :
  char ∈ urlAllowedChars →
  ∃ i : nat, (i < 84)%nat ∧ position_of char = N.of_nat i ∧
             urlAllowedChars !! i = Some char.
Proof.
  intros (i & Hi & Hchar & Hindex)%allowed_index. exists i.
  unfold position_of. by rewrite Hindex.
Qed.

Lemma mapC_getXXPosition url :
  allowed url →
  mapC getXXPosition url = Normal ((two_digits ∘ position_of) <$> url).
Proof.
  induction 1 as [|char url Hchar _ IH]; [done|].
  simpl. rewrite (getXXPosition_allowed char Hchar). simpl.
  by rewrite IH.
Qed.

Lemma mapC_getXXPosition_throws url char url' :
  allowed url → char ∉ urlAllowedChars →
  mapC getXXPosition (url ++ char :: url') = Throw (Disallowed_char char).
Proof.
  intros Hurl Hchar. induction Hurl as [|c url Hc _ IH]; simpl.
  - unfold getXXPosition. by rewrite (disallowed_index char Hchar).
  - rewrite (getXXPosition_allowed c Hc). simpl. by rewrite IH.
Qed.

(** [pack] after a string of four digits, and from the start. *)
Lemma pack_full (result : list string) (lastCode code : string) :
  String.length lastCode = 4%nat →
  pack (result ++ [lastCode]) code = Normal ((result ++ [lastCode]) ++ [code]).
Proof. intros Hlast. unfold pack. by rewrite last_snoc, Hlast. Qed.

Lemma pack_short (result : list string) (lastCode code : string) :
  (String.length lastCode ≤ 2)%nat →
  pack (result ++ [lastCode]) code =
  Normal (result ++ [String.append lastCode code]).
Proof.
  intros Hlast. unfold pack. rewrite last_snoc, removelast_last.
  by rewrite (proj2 (Nat.ltb_ge _ _)).
Qed.

Lemma reduceC_pack_full codes :
  ∀ (result : list string) (lastCode : string),
    String.length lastCode = 4%nat →
    Forall (λ code, String.length code = 2%nat) codes →
    reduceC pack (result ++ [lastCode]) codes =
    Normal (result ++ [lastCode] ++ packed codes).
Proof.
  induction codes as [|code1|code1 code2 codes IH] using pair_ind;
    intros result lastCode Hlast Hcodes.
  - done.
  - cbn [reduceC]. rewrite pack_full by done. simpl.
    by rewrite <- app_assoc.
  - apply Forall_cons in Hcodes as [Hcode1 Hcodes].
    apply Forall_cons in Hcodes as [Hcode2 Hcodes].
    cbn [reduceC]. rewrite pack_full by done.
    unfold mbind at 1, completion_bind at 1.
    rewrite pack_short by lia.
    unfold mbind at 1, completion_bind at 1.
    rewrite (IH (result ++ [lastCode]) (String.append code1 code2));
      [|by rewrite string_length_append, Hcode1, Hcode2|done].
    by rewrite <- !app_assoc.
Qed.

Lemma reduceC_pack codes :
  Forall (λ code, String.length code = 2%nat) codes →
  reduceC pack [EmptyString] codes =
  Normal (match codes with [] => [EmptyString] | _ => packed codes end).
Proof.
  intros Hcodes. destruct codes as [|code1 [|code2 codes]]; [done..|].
  apply Forall_cons in Hcodes as [Hcode1 Hcodes].
  apply Forall_cons in Hcodes as [Hcode2 Hcodes].
  cbn [reduceC]. rewrite (pack_short [] EmptyString) by (simpl; lia).
  unfold mbind at 1, completion_bind at 1.
  change (String.append EmptyString code1) with code1.
  rewrite (pack_short [] code1) by lia.
  unfold mbind at 1, completion_bind at 1.
  apply (reduceC_pack_full codes [] (String.append code1 code2));
    [by rewrite string_length_append, Hcode1, Hcode2|done].
Qed.

Lemma fromCodePoint_packed url :
  allowed url →
  fromCodePoint (packed ((two_digits ∘ position_of) <$> url)) =
  Normal (short_link url).
Proof.
  induction url as [|a|a b url IH] using pair_ind; intros Hurl.
  - done.
  - apply Forall_cons in Hurl as [Ha _].
    destruct (position_of_allowed a Ha) as (i & Hi & Hpos & _).
    cbn [fmap list_fmap packed short_link fromCodePoint mapC compose].
    rewrite Hpos. destruct (index_checked i Hi) as [_ ->].
    rewrite (proj2 (N.leb_le _ _)) by lia. done.
  - apply Forall_cons in Hurl as [Ha Hurl].
    apply Forall_cons in Hurl as [Hb Hurl].
    destruct (position_of_allowed a Ha) as (i & Hi & Hposa & _).
    destruct (position_of_allowed b Hb) as (j & Hj & Hposb & _).
    cbn [fmap list_fmap packed short_link fromCodePoint mapC compose].
    rewrite Hposa, Hposb. destruct (pair_checked i j Hi Hj) as [-> _].
    rewrite (proj2 (N.leb_le _ _)) by lia. simpl.
    specialize (IH Hurl). unfold fromCodePoint in IH.
    by rewrite IH.
Qed.

Lemma encode_allowed url :
  allowed url →
  encode url = Normal (match url with [] => [0%N] | _ => short_link url end).
Proof.
  intros Hurl. unfold encode. rewrite (mapC_getXXPosition url Hurl). simpl.
  rewrite reduceC_pack.
  - simpl. destruct url as [|a url]; [done|].
    by rewrite <- (fromCodePoint_packed (a :: url) Hurl).
  - apply Forall_fmap. eapply Forall_impl; [done|].
    intros char (i & Hi & Hpos & _)%position_of_allowed.
    unfold compose. rewrite Hpos. by destruct (index_checked i Hi).
Qed.

(** *** Reading a short link *)

Lemma foldl_unpack (result : list string) codes :
  foldl unpack result codes = result ++ foldl unpack [] codes.
Proof.
  revert result. induction codes as [|code codes IH]; intros result; simpl.
  - by rewrite app_nil_r.
  - rewrite IH, (IH (unpack [] code)). unfold unpack. simpl.
    by rewrite app_assoc.
Qed.

Lemma mapC_app {A B : Type} (f : A → completion B) (l1 l2 : list A) :
  mapC f (l1 ++ l2) =
  (ys1 ← mapC f l1; ys2 ← mapC f l2; Normal (ys1 ++ ys2)).
Proof.
  induction l1 as [|x l1 IH]; simpl.
  - by destruct (mapC f l2).
  - destruct (f x) as [y|e]; simpl; [|done]. rewrite IH.
    destruct (mapC f l1) as [ys1|e]; simpl; [|done].
    by destruct (mapC f l2).
Qed.

Lemma decode_cons (n : N) (code : list N) :
  decode (n :: code) =
  (chars ← decode [n]; url ← decode code; Normal (chars ++ url)).
Proof.
  unfold decode. simpl. rewrite foldl_unpack. apply mapC_app.
Qed.

Lemma position_of_zero char :
  char ∈ urlAllowedChars → (position_of char = 0%N ↔ char = 65%N).
Proof.
  intros (i & Hi & Hpos & Hchar)%position_of_allowed. rewrite Hpos. split.
  - intros Hzero. assert (i = 0%nat) as -> by lia.
    assert (urlAllowedChars !! 0%nat = Some 65%N) as Hfirst by done.
    congruence.
  - intros ->.
    pose proof indices_checked as Hall. rewrite Forall_forall in Hall.
    destruct (Hall i) as [Hindex _]; [apply elem_of_seq; lia|].
    rewrite Hchar in Hindex.
    assert (indexOf 65%N = Some 0%N) as Hfirst by (vm_compute; reflexivity).
    simpl in Hindex. rewrite Hfirst in Hindex. by injection Hindex.
Qed.

Lemma decode_short_link url :
  allowed url → decode (short_link url) = Normal (read_back url).
Proof.
  induction url as [|a|a b url IH] using pair_ind; intros Hurl.
  - done.
  - apply Forall_cons in Hurl as [Ha _].
    destruct (position_of_allowed a Ha) as (i & Hi & Hpos & Hchar).
    cbn [short_link read_back]. rewrite Hpos.
    destruct (pair_checked 0 i ltac:(lia) Hi) as [_ Hdecode].
    change (100 * N.of_nat 0 + N.of_nat i)%N with (N.of_nat i) in Hdecode.
    rewrite Hdecode. simpl. by rewrite Hchar.
  - apply Forall_cons in Hurl as [Ha Hurl].
    apply Forall_cons in Hurl as [Hb Hurl].
    destruct (position_of_allowed a Ha) as (i & Hi & Hposa & Hchara).
    destruct (position_of_allowed b Hb) as (j & Hj & Hposb & Hcharb).
    cbn [short_link read_back]. rewrite decode_cons, (IH Hurl).
    rewrite Hposa, Hposb. destruct (pair_checked i j Hi Hj) as [_ ->].
    pose proof (position_of_zero a Ha) as Hzero. rewrite Hposa in Hzero.
    destruct (decide (i = 0%nat)) as [->|Hne].
    + rewrite decide_True by by apply Hzero.
      simpl. by rewrite Hcharb.
    + rewrite decide_False by (intros Ha65%Hzero; lia).
      simpl. by rewrite Hchara, Hcharb.
Qed.

Lemma length_short_link url :
  length (short_link url) = ((length url + 1) / 2)%nat.
Proof.
  induction url as [|a|a b url IH] using pair_ind; [done..|].
  cbn [short_link length]. rewrite IH.
  replace (S (S (length url)) + 1)%nat with ((length url + 1) + 1 * 2)%nat
    by lia.
  rewrite Nat.div_add by done. lia.
Qed.

Lemma short_link_bound url :
  allowed url → Forall (λ n, (n < 8400)%N) (short_link url).
Proof.
  induction url as [|a|a b url IH] using pair_ind; intros Hurl.
  - constructor.
  - apply Forall_cons in Hurl as [Ha _].
    destruct (position_of_allowed a Ha) as (i & Hi & Hpos & _).
    simpl. rewrite Hpos. constructor; [lia|constructor].
  - apply Forall_cons in Hurl as [Ha Hurl].
    apply Forall_cons in Hurl as [Hb Hurl].
    destruct (position_of_allowed a Ha) as (i & Hi & Hposa & _).
    destruct (position_of_allowed b Hb) as (j & Hj & Hposb & _).
    cbn [short_link]. rewrite Hposa, Hposb. constructor; [lia|by apply IH].
Qed.

Lemma read_back_keeps url : read_back url = url ↔ keeps_pairs url.
Proof.
  induction url as [|a|a b url IH] using pair_ind; [done..|].
  cbn [read_back keeps_pairs]. destruct (decide (a = 65%N)) as [->|Hne].
  - split; [|by intros [? _]]. intros Heq.
    apply (f_equal length) in Heq. simpl in Heq.
    assert (length (read_back url) ≤ length url)%nat; [|lia].
    clear. induction url as [|a|a b url IH] using pair_ind; [done..|].
    cbn [read_back]. rewrite length_app. destruct (decide _); simpl; lia.
  - simpl. rewrite <- IH. split.
    + by intros [= ->].
    + by intros [_ ->].
Qed.

Lemma length_read_back url : (length (read_back url) ≤ length url)%nat.
Proof.
  induction url as [|a|a b url IH] using pair_ind; [done..|].
  cbn [read_back]. rewrite length_app. destruct (decide _); simpl; lia.
Qed.

Lemma getCharByPosition_outcome (position : string) :
  match getCharByPosition position with
  | Normal char => char ∈ urlAllowedChars
  | Throw e => e = Invalid_code
  end.
Proof.
  unfold getCharByPosition.
  destruct (digits_value position) as [n|]; [|done].
  destruct (urlAllowedChars !! N.to_nat n) as [char|] eqn:Hchar; [|done].
  by apply list_elem_of_lookup_2 in Hchar.
Qed.

Lemma mapC_getCharByPosition (positions : list string) :
  match mapC getCharByPosition positions with
  | Normal url => allowed url
  | Throw e => e = Invalid_code
  end.
Proof.
  induction positions as [|position positions IH]; simpl; [constructor|].
  pose proof (getCharByPosition_outcome position) as Hchar.
  destruct (getCharByPosition position) as [char|e]; simpl; [|done].
  destruct (mapC getCharByPosition positions) as [url|e]; simpl; [|done].
  by constructor.
Qed.
End Shortener.

(** [encode] returns a short link when every character of the url is
    one of [urlAllowedChars], and this is the only case: otherwise it
    throws for the first character that is not. *)
Theorem encode_outcome (url : list N) :
  (allowed url ∧ ∃ code, encode url = Normal code) ∨
  (∃ before char after,
     url = before ++ char :: after ∧ allowed before ∧
     (char ∉ urlAllowedChars) ∧ encode url = Throw (Disallowed_char char)).
Proof.
  assert (allowed url ∨
          ∃ before char after, url = before ++ char :: after ∧
            allowed before ∧ (char ∉ urlAllowedChars)) as [Hurl|Hbad].
  { induction url as [|c url IH]; [left; constructor|].
    destruct (decide (c ∈ urlAllowedChars)) as [Hc|Hc].
    - destruct IH as [Hurl|(before & char & after & -> & Hbefore & Hchar)].
      + left. by constructor.
      + right. exists (c :: before), char, after.
        split; [done|]. split; [by constructor|done].
    - right. exists [], c, url. split; [done|]. split; [constructor|done]. }
  - left. split; [done|]. rewrite (encode_allowed url Hurl). by eexists.
  - right. destruct Hbad as (before & char & after & -> & Hbefore & Hchar).
    exists before, char, after. split; [done|]. split; [done|].
    split; [done|]. unfold encode.
    by rewrite (mapC_getXXPosition_throws before char after Hbefore Hchar).
Qed.

Lemma allowed_wikipedia :
  allowed (code_points "https://en.wikipedia.org/wiki/URL_shortening").
Proof. apply (bool_decide_unpack _). vm_compute. exact I. Defined.

(** The short link of a url of allowed characters that is not empty has
    one code point for two characters of the url, and one more when
    their number is odd; from two characters on it is at least 1.5
    times shorter than the url.  Every code point is below 8400, so that
    it is one UTF-16 unit and [Array.from] reads it back as it is. *)
Theorem short_link_length (url : list N) :
  allowed url → url ≠ [] →
  ∃ code, encode url = Normal code ∧
          length code = ((length url + 1) / 2)%nat ∧
          ((2 ≤ length url)%nat → (3 * length code ≤ 2 * length url)%nat) ∧
          Forall (λ n, (n < 8400)%N) code.
Proof.
  intros Hurl Hne. rewrite (encode_allowed url Hurl).
  destruct url as [|a url]; [done|]. eexists. split; [done|].
  rewrite length_short_link. split; [done|].
  split; [|by apply short_link_bound].
  generalize (length (a :: url)). intros n Hn.
  pose proof (Nat.div_mod_eq (n + 1) 2) as Hdiv.
  pose proof (Nat.mod_upper_bound (n + 1) 2 ltac:(done)) as Hmod.
  lia.
Qed.

Lemma short_link_length_witness :
  allowed (code_points "https://en.wikipedia.org/wiki/URL_shortening") ∧
  code_points "https://en.wikipedia.org/wiki/URL_shortening" ≠ [] ∧
  ∃ code,
    encode (code_points "https://en.wikipedia.org/wiki/URL_shortening") =
      Normal code ∧
    length code =
      ((length (code_points "https://en.wikipedia.org/wiki/URL_shortening")
        + 1) / 2)%nat ∧
    ((2 ≤ length (code_points "https://en.wikipedia.org/wiki/URL_shortening"))%nat →
     (3 * length code ≤
      2 * length (code_points "https://en.wikipedia.org/wiki/URL_shortening"))%nat) ∧
    Forall (λ n, (n < 8400)%N) code.
Proof.
  split; [apply allowed_wikipedia|]. split; [discriminate|].
  apply (short_link_length
           (code_points "https://en.wikipedia.org/wiki/URL_shortening")).
  - apply allowed_wikipedia.
  - discriminate.
Defined.

(** What [decode] returns for the short link of a url of allowed
    characters: the url without every [A] that was packed as the first
    of two characters, and the one character [A] for the empty url. *)
Theorem decode_encode (url : list N) :
  allowed url →
  ∃ code, encode url = Normal code ∧
          decode code =
          Normal (match url with [] => [65%N] | _ => read_back url end).
Proof.
  intros Hurl. rewrite (encode_allowed url Hurl). eexists. split; [done|].
  destruct url as [|a url]; [done|]. by apply decode_short_link.
Qed.

Lemma decode_encode_witness :
  allowed (code_points "AJAX") ∧
  ∃ code, encode (code_points "AJAX") = Normal code ∧
          decode code = Normal (code_points "JX").
Proof.
  assert (allowed (code_points "AJAX")) as Hurl.
  { apply (bool_decide_unpack _). vm_compute. exact I. }
  split; [done|]. by apply (decode_encode (code_points "AJAX")).
Defined.

(** [decode] gives back the url from its short link exactly when the
    url is not empty and no [A] stands at an even place (from 0) before
    another character. *)
Theorem round_trip_iff (url : list N) :
  allowed url →
  ((∃ code, encode url = Normal code ∧ decode code = Normal url) ↔
   url ≠ [] ∧ keeps_pairs url).
Proof.
  intros Hurl. rewrite (encode_allowed url Hurl). split.
  - intros (code & [= <-] & Hdecode). destruct url as [|a url]; [done|].
    split; [done|]. rewrite (decode_short_link _ Hurl) in Hdecode.
    apply read_back_keeps. by injection Hdecode.
  - intros [Hne Hkeeps]. destruct url as [|a url]; [done|].
    eexists. split; [done|]. rewrite (decode_short_link _ Hurl).
    f_equal. by apply read_back_keeps.
Qed.

Lemma round_trip_iff_witness :
  allowed (code_points "https://en.wikipedia.org/wiki/URL_shortening") ∧
  ((∃ code,
      encode (code_points "https://en.wikipedia.org/wiki/URL_shortening") =
        Normal code ∧
      decode code =
        Normal (code_points "https://en.wikipedia.org/wiki/URL_shortening")) ↔
   code_points "https://en.wikipedia.org/wiki/URL_shortening" ≠ [] ∧
   keeps_pairs (code_points "https://en.wikipedia.org/wiki/URL_shortening")).
Proof.
  split; [apply allowed_wikipedia|].
  apply (round_trip_iff
           (code_points "https://en.wikipedia.org/wiki/URL_shortening")).
  apply allowed_wikipedia.
Defined.

(** Whatever the short link, [decode] returns allowed characters only,
    and the only exception it throws is the one for an invalid code. *)
Theorem decode_outcome (code : list N) :
  match decode code with
  | Normal url => allowed url
  | Throw e => e = Invalid_code
  end.
Proof. unfold decode. apply mapC_getCharByPosition. Qed.

(** ** parseBankAccount: drawn account numbers *)

Lemma pictures_checked :
  Forall (λ d : nat,
    length (picture (N.of_nat d)) = 9%nat ∧
    forallb (λ c, negb (line_terminator c) && negb (c =? 10)%N)
      (picture (N.of_nat d)) = true ∧
    (λ found, found.2.2) <$>
      list_find (λ entry, entry.1 = picture (N.of_nat d)) digitMap =
      Some (N.of_nat d)) (seq 0 10).
Proof. apply (bool_decide_unpack _). vm_compute. exact I. Qed.

Section Account.
Implicit Types (digits : list N) (line el : list N).

Lemma picture_checked (d : N) :
  (d < 10)%N →
  length (picture d) = 9%nat ∧
  Forall (λ c, line_terminator c = false ∧ c ≠ 10%N) (picture d) ∧
  ∃ i drawing,
    list_find (λ entry, entry.1 = picture d) digitMap = Some (i, (drawing, d)).
Proof.
  intros Hd. pose proof pictures_checked as Hall. rewrite Forall_forall in Hall.
  destruct (Hall (N.to_nat d)) as (Hlen & Hchars & Hfind);
    [apply elem_of_seq; lia|].
  rewrite N2Nat.id in Hlen, Hchars, Hfind. split; [done|]. split.
  - apply Forall_forall. intros c Hc.
    rewrite forallb_forall in Hchars.
    specialize (Hchars c ltac:(by apply list_elem_of_In)).
    apply andb_true_iff in Hchars as [Hterm Hnl].
    split; [by apply negb_true_iff|].
    apply negb_true_iff in Hnl. by apply N.eqb_neq.
  - destruct (list_find _ digitMap) as [[i [drawing d']]|]; [|done].
    simpl in Hfind. injection Hfind as ->. by exists i, drawing.
Qed.

Lemma split_newline_line line (rest : list N) :
  Forall (λ c, c ≠ 10%N) line →
  split_newline (line ++ 10%N :: rest) = line :: split_newline rest.
Proof.
  induction 1 as [|c line Hc _ IH]; [done|].
  simpl. rewrite (proj2 (N.eqb_neq _ _) Hc). by rewrite IH.
Qed.

Lemma match_threes_join (chunks : list (list N)) :
  Forall (λ chunk, length chunk = 3%nat ∧
                   Forall (λ c, line_terminator c = false) chunk) chunks →
  match_threes (mjoin chunks) = chunks.
Proof.
  induction 1 as [|chunk chunks [Hlen Hchars] _ IH]; [done|].
  destruct chunk as [|a [|b [|c [|? ?]]]]; try done.
  apply Forall_cons in Hchars as [Ha Hchars].
  apply Forall_cons in Hchars as [Hb Hchars].
  apply Forall_cons in Hchars as [Hc _].
  simpl. rewrite Ha, Hb, Hc. simpl. by rewrite IH.
Qed.

Lemma match_dots_chunks el (chunks : list (list N)) :
  match_threes el = chunks → chunks ≠ [] → match_dots el = Some chunks.
Proof. unfold match_dots. intros ->. by destruct chunks. Qed.

Lemma picture_rows (d : N) :
  (d < 10)%N →
  take 3 (picture d) ++ take 3 (drop 3 (picture d)) ++ drop 6 (picture d) =
  picture d.
Proof.
  intros _. rewrite <- (take_drop 3 (picture d)) at 4. f_equal.
  rewrite <- (take_drop 3 (drop 3 (picture d))) at 2. f_equal.
  by rewrite drop_drop.
Qed.

(** The three rows of a drawing are lines of chunks that [/.{3}/g]
    finds again. *)
Lemma row_chunks digits (part : list N → list N) :
  Forall (λ d, (d < 10)%N) digits →
  (∀ d, (d < 10)%N → length (part (picture d)) = 3%nat ∧
                     ∀ c, c ∈ part (picture d) → c ∈ picture d) →
  Forall (λ c, c ≠ 10%N) (mjoin ((λ d, part (picture d)) <$> digits)) ∧
  match_threes (mjoin ((λ d, part (picture d)) <$> digits)) =
  (λ d, part (picture d)) <$> digits.
Proof.
  intros Hdigits Hpart. split.
  - apply Forall_forall. intros c (chunk & Hc & Hchunk)%list_elem_of_join.
    apply list_elem_of_fmap in Hchunk as (d & -> & Hd).
    rewrite Forall_forall in Hdigits. specialize (Hdigits d Hd).
    destruct (Hpart d Hdigits) as [_ Hsub]. apply Hsub in Hc.
    destruct (picture_checked d Hdigits) as (_ & Hchars & _).
    rewrite Forall_forall in Hchars. by destruct (Hchars c Hc).
  - apply match_threes_join. apply Forall_fmap.
    eapply Forall_impl; [done|]. intros d Hd. simpl.
    destruct (Hpart d Hd) as [Hlen Hsub]. split; [done|].
    apply Forall_forall. intros c Hc%Hsub.
    destruct (picture_checked d Hd) as (_ & Hchars & _).
    rewrite Forall_forall in Hchars. by destruct (Hchars c Hc).
Qed.

Lemma picture_parts (d : N) :
  (d < 10)%N →
  (length (take 3 (picture d)) = 3%nat ∧
   ∀ c, c ∈ take 3 (picture d) → c ∈ picture d) ∧
  (length (take 3 (drop 3 (picture d))) = 3%nat ∧
   ∀ c, c ∈ take 3 (drop 3 (picture d)) → c ∈ picture d) ∧
  (length (drop 6 (picture d)) = 3%nat ∧
   ∀ c, c ∈ drop 6 (picture d) → c ∈ picture d).
Proof.
  intros Hd. destruct (picture_checked d Hd) as (Hlen & _ & _).
  split; [|split]; split.
  - rewrite length_take. lia.
  - intros c Hc. by apply (subseteq_take 3).
  - rewrite length_take, length_drop. lia.
  - intros c Hc%(subseteq_take 3). by apply (subseteq_drop 3).
  - rewrite length_drop. lia.
  - intros c Hc. by apply (subseteq_drop 6).
Qed.

Lemma read_digit_drawn digits (rows : list (option (list (list N))))
    (i : nat) (d : N) (x : number) :
  Forall (λ d, (d < 10)%N) digits →
  rows !! 1%nat = Some (Some ((λ d, take 3 (drop 3 (picture d))) <$> digits)) →
  rows !! 2%nat = Some (Some ((λ d, drop 6 (picture d)) <$> digits)) →
  digits !! i = Some d →
  read_digit rows (Number x) (take 3 (picture d)) i =
  Normal (Number (js_add (js_mul x (Finite 10)) (Finite (Z.of_N d)))).
Proof.
  intros Hdigits Hrow1 Hrow2 Hi.
  assert (d < 10)%N as Hd.
  { rewrite Forall_forall in Hdigits. apply Hdigits.
    by apply list_elem_of_lookup_2 in Hi. }
  unfold read_digit, chunk_at.
  rewrite Hrow1, Hrow2, !list_lookup_fmap, Hi.
  unfold mbind, completion_bind. cbn [fmap option_fmap option_map].
  rewrite (picture_rows d Hd).
  by destruct (picture_checked d Hd) as (_ & _ & j & drawing & ->).
Qed.

(** With [i] digits read the number is below [10 ^ i]; up to fifteen
    digits, neither the product nor the sum is rounded. *)
Lemma reduce_drawn digits (rows : list (option (list (list N)))) :
  Forall (λ d, (d < 10)%N) digits → (length digits ≤ 15)%nat →
  rows !! 1%nat = Some (Some ((λ d, take 3 (drop 3 (picture d))) <$> digits)) →
  rows !! 2%nat = Some (Some ((λ d, drop 6 (picture d)) <$> digits)) →
  ∀ later (i : nat) (n : N),
    drop i digits = later → Z.of_N n < 10 ^ Z.of_nat i →
    reduce_index (read_digit rows) (Number (Finite (Z.of_N n)))
      ((λ d, take 3 (picture d)) <$> later) i =
    Normal (Number (Finite (Z.of_N (foldl (λ n d, n * 10 + d)%N n later)))).
Proof.
  intros Hdigits Hlen Hrow1 Hrow2 later.
  induction later as [|d later IH]; intros i n Hlater Hn; [done|].
  assert (digits !! i = Some d) as Hi.
  { rewrite <- (Nat.add_0_r i), <- lookup_drop. by rewrite Hlater. }
  assert (d < 10)%N as Hd.
  { rewrite Forall_forall in Hdigits. apply Hdigits.
    by apply list_elem_of_lookup_2 in Hi. }
  assert (10 ^ Z.of_nat (S i) ≤ 10 ^ 15) as Hpow.
  { apply lookup_lt_Some in Hi. apply Z.pow_le_mono_r; lia. }
  assert (10 ^ Z.of_nat (S i) = 10 * 10 ^ Z.of_nat i) as Hstep.
  { rewrite Nat2Z.inj_succ, Z.pow_succ_r by lia. done. }
  assert (10 ^ 15 < 2 ^ 53) as Hfits by done.
  cbn [fmap list_fmap reduce_index].
  rewrite (read_digit_drawn digits rows i d _ Hdigits Hrow1 Hrow2 Hi).
  unfold mbind at 1, completion_bind at 1. cbn [foldl].
  rewrite js_mul_exact by lia. rewrite js_add_exact by lia.
  replace (Z.of_N n * 10 + Z.of_N d) with (Z.of_N (n * 10 + d)) by lia.
  apply IH; [|lia].
  rewrite (drop_S digits d i Hi) in Hlater. by injection Hlater.
Qed.
End Account.

(** The text that draws an account number of one to fifteen digits
    with the patterns of [digitMap], three rows with their line ends,
    is parsed to that number. *)
Theorem parseBankAccount_draw (digits : list N) :
  digits ≠ [] → Forall (λ d, (d < 10)%N) digits →
  (length digits ≤ 15)%nat →
  parseBankAccount (draw digits) =
  Normal (Number (Finite (Z.of_N (number_of digits)))).
Proof.
  intros Hne Hdigits Hlen.
  destruct (row_chunks digits (take 3) Hdigits) as [Hnl0 Hrow0];
    [intros d Hd; apply (picture_parts d Hd)|].
  destruct (row_chunks digits (λ pic, take 3 (drop 3 pic)) Hdigits)
    as [Hnl1 Hrow1]; [intros d Hd; apply (picture_parts d Hd)|].
  destruct (row_chunks digits (drop 6) Hdigits) as [Hnl2 Hrow2];
    [intros d Hd; apply (picture_parts d Hd)|].
  assert (∀ part : N → list N, part <$> digits ≠ []) as Hrows.
  { intros part Hnil%fmap_nil_inv. done. }
  unfold parseBankAccount, draw. cbn [app].
  rewrite (split_newline_line _ _ Hnl0).
  rewrite (split_newline_line _ _ Hnl1).
  rewrite (split_newline_line _ _ Hnl2).
  cbn [fmap list_fmap split_newline].
  rewrite (match_dots_chunks _ _ Hrow0 (Hrows _)).
  rewrite (match_dots_chunks _ _ Hrow1 (Hrows _)).
  rewrite (match_dots_chunks _ _ Hrow2 (Hrows _)).
  cbn [lookup list_lookup].
  change (Finite 0) with (Finite (Z.of_N 0)).
  by apply (reduce_drawn digits); [..|apply drop_0|].
Qed.

Lemma parseBankAccount_draw_witness :
  [1; 2; 3; 4; 5; 6; 7; 8; 9]%N ≠ [] ∧
  Forall (λ d, (d < 10)%N) [1; 2; 3; 4; 5; 6; 7; 8; 9]%N ∧
  (length [1; 2; 3; 4; 5; 6; 7; 8; 9]%N ≤ 15)%nat ∧
  parseBankAccount (draw [1; 2; 3; 4; 5; 6; 7; 8; 9]%N) =
  Normal (Number (Finite (Z.of_N (number_of [1; 2; 3; 4; 5; 6; 7; 8; 9]%N)))).
Proof.
  assert (Forall (λ d, (d < 10)%N) [1; 2; 3; 4; 5; 6; 7; 8; 9]%N) as Hdigits
    by (repeat constructor; lia).
  split; [discriminate|]. split; [done|]. split; [simpl; lia|].
  apply (parseBankAccount_draw [1; 2; 3; 4; 5; 6; 7; 8; 9]%N);
    [discriminate|done|simpl; lia].
Defined.

Lemma read_digit_no_TypeError (rows : list (option (list (list N))))
    (chunks1 chunks2 : list (list N)) (result : parsed) (el : list N)
    (i : nat) :
  rows !! 1%nat = Some (Some chunks1) → rows !! 2%nat = Some (Some chunks2) →
  read_digit rows result el i ≠ Throw JsTypeError.
Proof.
  intros Hrow1 Hrow2. unfold read_digit, chunk_at. rewrite Hrow1, Hrow2.
  destruct (chunks1 !! i), (chunks2 !! i); unfold mbind, completion_bind;
    (destruct (list_find _ digitMap) as [[? [? ?]]|];
     [by destruct result|by destruct (bool_decide _)]).
Qed.

Lemma reduce_index_no_TypeError (rows : list (option (list (list N))))
    (chunks1 chunks2 : list (list N)) (chunks : list (list N)) :
  rows !! 1%nat = Some (Some chunks1) → rows !! 2%nat = Some (Some chunks2) →
  ∀ (result : parsed) (i : nat),
    reduce_index (read_digit rows) result chunks i ≠ Throw JsTypeError.
Proof.
  intros Hrow1 Hrow2. induction chunks as [|el chunks IH]; intros result i.
  - done.
  - cbn [reduce_index].
    pose proof (read_digit_no_TypeError rows chunks1 chunks2 result el i
                  Hrow1 Hrow2) as Hread.
    destruct (read_digit rows result el i) as [acc|e];
      unfold mbind, completion_bind; [apply IH|congruence].
Qed.

Lemma match_dots_nonempty (lines : list (list N)) (k : nat)
    (chunks : list (list N)) :
  (match_dots <$> lines) !! k = Some (Some chunks) → chunks ≠ [].
Proof.
  rewrite list_lookup_fmap. destruct (lines !! k) as [el|]; [|done].
  simpl. unfold match_dots. destruct (match_threes el); [done|].
  by intros [= <-].
Qed.

(** A row that is missing or [null] makes the first call of the
    callback throw. *)
Lemma reduce_index_TypeError (rows : list (option (list (list N))))
    (chunks : list (list N)) (k : nat) :
  chunks ≠ [] → (k = 1 ∨ k = 2)%nat →
  (∀ chunks', rows !! k ≠ Some (Some chunks')) →
  reduce_index (read_digit rows) (Number (Finite 0)) chunks 0 =
  Throw JsTypeError.
Proof.
  intros Hne Hk Hbad. destruct chunks as [|el chunks]; [done|].
  cbn [reduce_index]. unfold read_digit, chunk_at.
  destruct Hk as [-> | ->].
  - destruct (rows !! 1%nat) as [[chunks1|]|]; [by destruct (Hbad chunks1)|done..].
  - destruct (rows !! 1%nat) as [[chunks1|]|]; [|done..].
    destruct (rows !! 2%nat) as [[chunks2|]|]; [by destruct (Hbad chunks2)|..];
      by destruct (chunks1 !! 0%nat).
Qed.

(** The parser throws a [TypeError] exactly when one of the first three
    lines of the text is missing or holds no three characters in a row
    that [.] matches, as a line of fewer than three characters. *)
Theorem parseBankAccount_TypeError (bankAccount : list N) :
  parseBankAccount bankAccount = Throw JsTypeError ↔
  ∃ k : nat, (k < 3)%nat ∧
    ∀ chunks, (match_dots <$> split_newline bankAccount) !! k ≠
              Some (Some chunks).
Proof.
  unfold parseBankAccount.
  set (rows := match_dots <$> split_newline bankAccount).
  destruct (rows !! 0%nat) as [[chunks0|]|] eqn:Hrow0;
    [|split; [intros _; exists 0%nat; split; [lia|congruence]|done]..].
  pose proof (match_dots_nonempty _ _ _ Hrow0) as Hne. split.
  - intros Hthrow.
    destruct (rows !! 1%nat) as [[chunks1|]|] eqn:Hrow1;
      [|exists 1%nat; split; [lia|congruence]..].
    destruct (rows !! 2%nat) as [[chunks2|]|] eqn:Hrow2;
      [|exists 2%nat; split; [lia|congruence]..].
    by destruct (reduce_index_no_TypeError rows chunks1 chunks2 chunks0
                   Hrow1 Hrow2 (Number (Finite 0)) 0%nat).
  - intros (k & Hk & Hbad). destruct k as [|k].
    + by destruct (Hbad chunks0).
    + apply (reduce_index_TypeError rows chunks0 (S k)); [done|lia|done].
Qed.
